(** * adamant: helpers/config.js

    A shallow embedding of the configuration loader of the ADAMANT node
    ([src/helpers/config.js]) together with the properties its design
    document states about it.

    The definitions come first:
    - [JS]: the fragment of JavaScript values and operators the loader uses;
    - [Lodash]: the two lodash entry points it calls, [_.transform] and
      [_.merge];
    - the loader itself, function by function, under the names of the
      source: [cleanDeep], [extractPeersList], [validateForce],
      [loadJSONFile], [Config];
    - [Heap]: a second embedding of [cleanDeep] over an explicit store of
      mutable objects, used for the statements about mutation;
    - the vocabulary of the statements and a sample host.
    The lemmas and theorems follow, in the same order. *)

From Stdlib Require Import ZArith Ascii String.
From stdpp Require Import base option list strings pretty gmap fin_maps.

#[local] Set Warnings "-register-all".
#[local] Open Scope Z_scope.
#[local] Open Scope string_scope.

(* ===================================================================== *)
(** * JavaScript values *)
(* ===================================================================== *)

Module JS.

(** Numbers are IEEE doubles in JavaScript.  The loader only handles port
    numbers, array indexes and the like, so the model keeps the integers
    and [NaN] (the result of [+undefined]) and leaves fractions and
    infinities out. *)
Inductive number := Int (z : Z) | NaN.

(** Values as [JSON.parse], an object literal or [process.env] produce
    them.  An object is the finite map of its own properties; the order
    of its properties is not observable by structural equality and is not
    recorded.  Every object inherits from [Object.prototype] and every
    array from [Array.prototype]: functions, class instances and objects
    with another prototype are outside the model. *)
Inductive value :=
| Undefined
| Null
| Bool (b : bool)
| Num (n : number)
| Str (s : string)
| Arr (elems : list value)
| Obj (props : gmap string value).

#[global] Instance value_inhabited : Inhabited value := populate Undefined.

(** [size] is only a measure for induction over nested values. *)
Fixpoint size (v : value) : nat :=
  match v with
  | Arr l => S (foldr (λ e n, size e + n)%nat 0%nat l)
  | Obj m => S (map_fold (λ _ e n, size e + n)%nat 0%nat m)
  | _ => 1%nat
  end.

(** ToBoolean. *)
Definition truthy (v : value) : bool :=
  match v with
  | Undefined | Null | Bool false | Num NaN | Num (Int 0) | Str "" => false
  | _ => true
  end.

(** [a || b], for operands whose evaluation has no effect. *)
Definition or (a b : value) : value := if truthy a then a else b.

(** [a === b].  Two containers are strictly equal only when they are the
    same object; every comparison in the loader is against a primitive or
    between values read from different files, so containers compare
    [false]. *)
Definition strict_eq (a b : value) : bool :=
  match a, b with
  | Undefined, Undefined | Null, Null => true
  | Bool x, Bool y => Bool.eqb x y
  | Num (Int x), Num (Int y) => Z.eqb x y
  | Str x, Str y => String.eqb x y
  | _, _ => false
  end.

(** ToString, as template literals apply it. *)
Fixpoint ToString (v : value) : string :=
  match v with
  | Undefined => "undefined"
  | Null => "null"
  | Bool true => "true"
  | Bool false => "false"
  | Num (Int z) => pretty z
  | Num NaN => "NaN"
  | Str s => s
  | Arr l =>
      String.concat ","
        (map (λ e, match e with Undefined | Null => "" | _ => ToString e end) l)
  | Obj _ => "[object Object]"
  end.

(** ToNumber, as unary [+] applies it.  The conversion of string
    literals ([StringToNumber] in ECMAScript) is taken as a parameter. *)
Definition ToNumber (StringToNumber : string → number) (v : value) : number :=
  match v with
  | Undefined => NaN
  | Null => Int 0
  | Bool true => Int 1
  | Bool false => Int 0
  | Num n => n
  | Str s => StringToNumber s
  | Arr _ | Obj _ => StringToNumber (ToString v)
  end.

(** [v.name] for a name that is not a built-in member ([length],
    [constructor], ...): [None] is the TypeError raised on [undefined]
    and [null]; an absent property reads as [undefined]. *)
Definition get (v : value) (name : string) : option value :=
  match v with
  | Undefined | Null => None
  | Obj m => Some (default Undefined (m !! name))
  | _ => Some Undefined
  end.

(** The own property [name] of [v], when [v] is an object that has it. *)
Definition own (v : value) (name : string) : option value :=
  match v with
  | Obj m => m !! name
  | _ => None
  end.

(** [s.split(sep)] for a separator of one character. *)
Fixpoint split (sep : ascii) (s : string) : list string :=
  match s with
  | EmptyString => [""]
  | String c s' =>
      if Ascii.eqb c sep then "" :: split sep s'
      else match split sep s' with
           | x :: r => String c x :: r
           | [] => [String c ""]
           end
  end.

(** [a.indexOf(x)]: the first index holding a value strictly equal to
    [x], or [-1]. *)
Fixpoint indexOf (a : list value) (x : value) : Z :=
  match a with
  | [] => -1
  | y :: a' =>
      if strict_eq y x then 0
      else let i := indexOf a' x in if Z.eqb i (-1) then -1 else i + 1
  end.

(** The property names of [Object.prototype].  For a plain object
    [key in object] holds for each of them, whether or not the object has
    the key itself, and [__proto__] among them is an accessor: assigning
    to it sets the prototype and creates no property. *)
Definition objectPrototype : list string :=
  ["constructor"; "__defineGetter__"; "__defineSetter__"; "hasOwnProperty";
   "__lookupGetter__"; "__lookupSetter__"; "isPrototypeOf";
   "propertyIsEnumerable"; "toString"; "valueOf"; "__proto__";
   "toLocaleString"].

Definition inherited (name : string) : bool :=
  bool_decide (name ∈ objectPrototype).

End JS.

Import JS.

(* ===================================================================== *)
(** * lodash *)
(* ===================================================================== *)

Module Lodash.

Definition isArray (v : value) : bool :=
  match v with Arr _ => true | _ => false end.

Definition isPlainObject (v : value) : bool :=
  match v with Obj _ => true | _ => false end.

(** [_.isEmpty]: no own enumerable property for an object, length zero
    for an array or a string, and [true] for every other primitive. *)
Definition isEmpty (v : value) : bool :=
  match v with
  | Obj m => bool_decide (dom m = ∅)
  | Arr l => bool_decide (length l = 0%nat)
  | Str s => bool_decide (String.length s = 0%nat)
  | _ => true
  end.

(** The characters of a string as one-character strings, the way
    [Object("ab")] exposes them under the keys ["0"], ["1"], ... *)
Fixpoint chars (s : string) : list value :=
  match s with
  | EmptyString => []
  | String c s' => Str (String c "") :: chars s'
  end.

(** Iteration over an array-like sequence, left to right, the callback
    receiving the accumulator, the element and its index. *)
Definition arrayEach (l : list value)
    (iteratee : value → value → string → value) (accumulator : value) : value :=
  snd (foldl (λ '(index, acc) v, (S index, iteratee acc v (pretty index)))
             (0%nat, accumulator) l).

(** [_.transform(object, iteratee)] without an explicit accumulator: the
    accumulator starts as [[]] for an array and as [{}] for anything else;
    the callback is called for every element of an array or every own
    property of an object (for a string: every character) and returns the
    updated accumulator.  [_.transform] stops early when the callback
    returns [false]; [cleanDeep]'s callback returns [undefined] or the new
    length of an array, never [false], so the early exit is not modelled. *)
Definition transform (object : value)
    (iteratee : value → value → string → value) : value :=
  match object with
  | Arr l => arrayEach l iteratee (Arr [])
  | Obj m => map_fold (λ key v acc, iteratee acc v key) (Obj ∅) m
  | Str s => arrayEach (chars s) iteratee (Obj ∅)
  | _ => Obj ∅
  end.

(** [isLength]: a non-negative integer up to [Number.MAX_SAFE_INTEGER].
    An object with such a [length] property is array-like for lodash. *)
Definition isLength (v : option value) : bool :=
  match v with
  | Some (Num (Int z)) => ((0 <=? z) && (z <=? 9007199254740991))%Z
  | _ => false
  end.

(** [copyArray(source)] on an array-like object: [Array(length)] filled
    with [source[0]], ..., [source[length - 1]].  [Array(length)] raises a
    RangeError above [2^32 - 1]: [None]. *)
Definition copyArray (source : gmap string value) : option (list value) :=
  match source !! "length" with
  | Some (Num (Int length)) =>
      if (length <=? 4294967295)%Z then
        Some ((λ index : nat, default Undefined (source !! pretty index))
                <$> seq 0 (Z.to_nat length))
      else None
  | _ => None
  end.

(** One key of [baseMerge], the value: what [object[key]] holds after the
    source value [srcValue] has been merged into the slot that held
    [objValue] ([None] when the key was absent).

    - an array source ([baseMergeDeep], [isArr]) is merged into the array
      already there, into a copy as an array of the array-like object
      already there, or else into a fresh [[]];
    - a plain-object source is merged into the object already there, or
      into a fresh [{}] when the slot holds no object;
    - any other source value goes through [assignMergeValue]: it is
      assigned, except that [undefined] is not assigned over an existing
      key.

    One case leaves the value model and gives [None]: a plain-object
    source arriving on an array adds named properties to that array.
    [None] also stands for the RangeError of [copyArray]. *)
Definition mergeSlot (baseMerge : value → value → option value)
    (objValue : option value) (srcValue : value) : option value :=
  match srcValue with
  | Arr _ =>
      match objValue with
      | Some (Arr a) => baseMerge (Arr a) srcValue
      | Some (Obj o) =>
          if isLength (o !! "length") then
            a ← copyArray o; baseMerge (Arr a) srcValue
          else baseMerge (Arr []) srcValue
      | _ => baseMerge (Arr []) srcValue
      end
  | Obj _ =>
      match objValue with
      | Some (Arr _) => None
      | Some (Obj o) => baseMerge (Obj o) srcValue
      | _ => baseMerge (Obj ∅) srcValue
      end
  | Undefined => Some (default Undefined objValue)
  | _ => Some srcValue
  end.

(** The keys of the source that [baseMerge] leaves alone on a plain
    object: [safeGet] reads [undefined] on both sides under the key
    [__proto__], so that an array or an object there is never merged; and
    [assignMergeValue] assigns [undefined] only when [key in object] is
    false, which it never is for a name of [Object.prototype]. *)
Definition skipped (object : gmap string value) (key : string)
    (srcValue : value) : bool :=
  match srcValue with
  | Arr _ | Obj _ => bool_decide (key = "__proto__")
  | Undefined => inherited key && bool_decide (object !! key = None)
  | _ => false
  end.

(** One key of [baseMerge] on a plain object: the object after the key
    has been merged.  A scalar under [__proto__] is assigned like any
    other ([baseAssignValue] defines the property). *)
Definition mergeKey (baseMerge : value → value → option value)
    (object : gmap string value) (key : string) (srcValue : value)
    : option (gmap string value) :=
  if skipped object key srcValue then Some object
  else newValue ← mergeSlot baseMerge (object !! key) srcValue;
       Some (<[key:=newValue]> object).

(** [baseMerge(object, source)]: every key of [source] is merged into
    [object].  For two arrays the keys are the indexes of the source, so
    the walk pairs the source elements with the elements of [object] at
    the same index; indexes past the end of [object] extend it. *)
Fixpoint baseMerge (object source : value) {struct source} : option value :=
  match source, object with
  | Obj src, Obj obj =>
      Obj <$>
        map_fold (λ key srcValue acc,
                    obj ← acc; mergeKey baseMerge obj key srcValue)
                 (Some obj) src
  | Arr src, Arr obj =>
      Arr <$>
        (fix each (src obj : list value) : option (list value) :=
           match src with
           | [] => Some obj
           | srcValue :: src' =>
               newValue ← mergeSlot baseMerge (head obj) srcValue;
               rest ← each src' (tail obj);
               Some (newValue :: rest)
           end) src obj
  | _, _ => None
  end.

(** [Object(object)] on the destination of [_.merge]. *)
Definition toObject (object : value) : option value :=
  match object with
  | Obj _ | Arr _ => Some object
  | Undefined | Null => Some (Obj ∅)
  | _ => None
  end.

(** [_.merge(object, ...sources)]: the sources are merged into the
    destination from left to right; a falsy source is skipped, a number
    or [true] has no property to merge.  [None] marks a run that leaves
    the value model: a primitive as destination (lodash merges into its
    wrapper object), a string as source, an array merged into an object
    or an object into an array at the top, and the cases of
    [mergeSlot]. *)
Definition merge (object : value) (sources : list value) : option value :=
  foldl (λ acc source,
           object ← acc;
           if truthy source then
             match source with
             | Obj _ | Arr _ => baseMerge object source
             | Str _ => None
             | _ => Some object
             end
           else Some object)
        (toObject object) sources.

End Lodash.

(* ===================================================================== *)
(** * The loader: pure helpers *)
(* ===================================================================== *)

(** ** [cleanDeep] (lines 135-189) *)

(** The second argument of [cleanDeep]; every flag defaults to [true]. *)
Record PruneOptions := {
  emptyArrays : bool;
  emptyObjects : bool;
  emptyStrings : bool;
  nullValues : bool;
  undefinedValues : bool;
}.

Definition defaultOptions : PruneOptions :=
  {| emptyArrays := true; emptyObjects := true; emptyStrings := true;
     nullValues := true; undefinedValues := true |}.

(** The five tests of the callback that end in a bare [return]. *)
Definition excluded (o : PruneOptions) (value : JS.value) : bool :=
  (emptyObjects o && Lodash.isPlainObject value && Lodash.isEmpty value)
  || (emptyArrays o && Lodash.isArray value
      && match value with Arr l => bool_decide (length l = 0%nat) | _ => false end)
  || (emptyStrings o && strict_eq value (Str ""))
  || (nullValues o && strict_eq value Null)
  || (undefinedValues o && strict_eq value Undefined).

(** The end of the callback: [result.push(value)] on an array
    accumulator, [result[key] = value] otherwise.  On an object that has
    no property [__proto__] of its own, an assignment to that name reaches
    the accessor of [Object.prototype] and creates no property: a
    primitive is ignored; an object or [null] becomes the prototype of
    [result].  The model, which has no prototypes, keeps the properties
    of [result] and nothing else: it does not follow that lodash no
    longer takes [result] for a plain object once an array or an object
    is its prototype.  The statements that depend on this are stated for
    values without a key named [__proto__]. *)
Definition append (result value : JS.value) (key : string) : JS.value :=
  match result with
  | Arr r => Arr (r ++ [value])
  | Obj r =>
      if bool_decide (key = "__proto__" ∧ r !! key = None) then Obj r
      else Obj (<[key:=value]> r)
  | _ => result
  end.

(** The callback handed to [_.transform]; [cleanDeep] is the function
    itself, for the recursive call. *)
Definition iteratee (o : PruneOptions) (cleanDeep : value → value)
    (result value : JS.value) (key : string) : JS.value :=
  (* Recurse into arrays and objects. *)
  let value :=
    match value with
    | Arr _ | Obj _ => cleanDeep value
    | _ => value
    end in
  if excluded o value then result else append result value key.

(** What the callback does with one value, apart from the accumulator:
    [pruneChild] is the value after the recursive call, [visit] is
    [None] when the callback returns without appending. *)
Definition pruneChild (cleanDeep : value → value) (value : JS.value) : JS.value :=
  match value with
  | Arr _ | Obj _ => cleanDeep value
  | _ => value
  end.

Definition visit (o : PruneOptions) (cleanDeep : value → value)
    (value : JS.value) : option JS.value :=
  let value := pruneChild cleanDeep value in
  if excluded o value then None else Some value.

(** On a string [_.transform] visits the characters, which are strings
    again, so the callback never takes its recursive branch there. *)
Fixpoint cleanDeep (o : PruneOptions) (object : value) : value :=
  match object with
  | Arr l => Lodash.transform (Arr l) (iteratee o (cleanDeep o))
  | Obj m => Lodash.transform (Obj m) (iteratee o (cleanDeep o))
  | _ => Lodash.transform object (iteratee o (λ value, value))
  end.

(** ** [extractPeersList] (lines 122-133) *)

(** [peer.shift()] twice on the result of [peer.split(':')]: the first
    segment, then the second one or [undefined]. *)
Definition extractPeersList (peers defaultPort : value) : value :=
  match peers with
  | Str peers =>
      Arr (map (λ peer,
                  let peer := split ":" peer in
                  let ip := from_option Str Undefined (head peer) in
                  let peer := tail peer in
                  let wsPort := or (from_option Str Undefined (head peer)) defaultPort in
                  Obj {[ "ip" := ip; "wsPort" := wsPort ]})
               (split "," peers))
  | _ => Arr []
  end.

(** ** The precedence merge (lines 83-90) *)

(** [commandLineConfig = cleanDeep(commandLineConfig)] followed by
    [_.merge(defaultConfig, customConfig, runtimeConfig, commandLineConfig)]. *)
Definition appConfig (defaultConfig customConfig runtimeConfig commandLineConfig : value)
    : option value :=
  let commandLineConfig := cleanDeep defaultOptions commandLineConfig in
  Lodash.merge defaultConfig [customConfig; runtimeConfig; commandLineConfig].

(* ===================================================================== *)
(** * The loader: effects *)
(* ===================================================================== *)

(** What a run of the loader leaves on the console. *)
Inductive event :=
| console_error (args : list value)
| console_log (args : list value).

Inductive error := TypeError | ModuleNotFound.

(** How a run ends: it returns to its caller, the process exits
    ([process.exit]), an exception propagates, or the run leaves the
    fragment of JavaScript that the value model covers. *)
Inductive outcome (A : Type) :=
| Returned (a : A)
| Exited (code : Z)
| Thrown (e : error)
| Unmodelled.
Arguments Returned {A} a.
Arguments Exited {A} code.
Arguments Thrown {A} e.
Arguments Unmodelled {A}.

(** A run: the console output so far and the way it ended. *)
Definition run (A : Type) : Type := list event * outcome A.

#[global] Instance run_ret : MRet run := λ A a, ([], Returned a).
#[global] Instance run_bind : MBind run := λ A B f m,
  match m with
  | (evs, Returned a) => let '(evs', r) := f a in ((evs ++ evs')%list, r)
  | (evs, Exited code) => (evs, Exited code)
  | (evs, Thrown e) => (evs, Thrown e)
  | (evs, Unmodelled) => (evs, Unmodelled)
  end.

Definition emit (e : event) : run unit := ([e], Returned tt).
Definition process_exit {A} (code : Z) : run A := ([], Exited code).
Definition throw {A} (e : error) : run A := ([], Thrown e).
Definition unmodelled {A} : run A := ([], Unmodelled).

(** Property read, raising TypeError on [undefined] and [null]. *)
Definition read (v : value) (name : string) : run value :=
  match get v name with
  | Some x => mret x
  | None => throw TypeError
  end.

(** A lodash call whose result stays inside the value model. *)
Definition modelled {A} (r : option A) : run A :=
  match r with
  | Some x => mret x
  | None => unmodelled
  end.

(** ** [validateForce] (lines 196-205) *)

(** [configData.forging.force = false]. *)
Definition disableForce (configData : value) : run value :=
  match configData with
  | Obj c =>
      match c !! "forging" with
      | Some (Obj f) => mret (Obj (<["forging" := Obj (<["force" := Bool false]> f)]> c))
      | _ => unmodelled
      end
  | _ => unmodelled
  end.

(** The config object is mutated in place; the function returns nothing.
    Here it returns the config as it stands after the call. *)
Definition validateForce (configData : value) : run value :=
  forging ← read configData "forging";
  force ← read forging "force";
  if truthy force then
    constants ← read configData "constants";
    nethashes ← read constants "nethashes";
    match nethashes with
    | Arr hashes =>
        nethash ← read configData "nethash";
        let index := indexOf hashes nethash in
        if negb (Z.eqb index (-1)) then
          emit (console_log [Str "Forced forging disabled for nethash"; nethash]);;
          disableForce configData
        else mret configData
    | Undefined | Null => throw TypeError
    | Str _ => unmodelled
    | _ => throw TypeError
    end
  else mret configData.

(** ** The host: what [Config] reaches outside the file *)

(** The collaborators of the loader, as functions: commander (the state
    of the [program] singleton is the map of its option values, and
    [parse] may end the process, as [--help] does), [process.env] and
    [process.argv], the file system behind [fs.readFileSync] and
    [JSON.parse], [require] for the constants and exceptions modules,
    [randomstring], and the z_schema validator with the config schema. *)
Record Host := {
  argv : list string;
  program : gmap string value;
  parse : list string → gmap string value → run (gmap string value);
  env : gmap string string;
  StringToNumber : string → number;
  rootPath : string;
  path_resolve : string → string → string;
  (** the parsed content of a file, or the message of the error raised by
      [fs.readFileSync] or [JSON.parse] *)
  readJSON : string → string + value;
  require : string → option value;
  randomstring_generate : Z → string;
  validate : value → bool;
  getLastErrors : value → value;
}.

Section Loader.
Context (H : Host).

(** [program.name] and [process.env.NAME]. *)
Definition option_value (program : gmap string value) (name : string) : value :=
  default Undefined (program !! name).

Definition process_env (name : string) : value :=
  from_option Str Undefined (env H !! name).

(** ** [loadJSONFile] (lines 111-120) *)

(** [path.resolve] raises on an argument that is not a string; that
    error is caught like the others, but the text of its message is not
    part of the model. *)
Definition loadJSONFile (filePath : value) : run value :=
  match filePath with
  | Str filePath =>
      let filePath := path_resolve H (rootPath H) filePath in
      match readJSON H filePath with
      | inr data => mret data
      | inl message =>
          emit (console_error [Str ("Failed to load file: " ++ filePath)]);;
          emit (console_error [Str message]);;
          process_exit 1
      end
  | _ => unmodelled
  end.

Definition required (module : string) : run value :=
  match require H module with
  | Some exports => mret exports
  | None => throw ModuleNotFound
  end.

(** [object.key = v] on the merged config. *)
Definition assign (object : value) (key : string) (v : value) : run value :=
  match object with
  | Obj m => mret (Obj (<[key:=v]> m))
  | _ => unmodelled
  end.

(** ** [Config] (lines 23-109) *)

(** Lines 24-39: the options are declared and [process.argv] is parsed
    at the end of the chain; the guarded call parses it once more. *)
Definition parseCommandLine (packageJson : value) (parseCommandLineOptions : bool)
    : run (gmap string value) :=
  _ ← read packageJson "version";
  program ← parse H (argv H) (program H);
  if parseCommandLineOptions then parse H (argv H) program else mret program.

(** What lines 40-90 leave in scope for the rest of the function. *)
Record Loaded := {
  genesisBlock : value;
  defaultConstants : value;
  customConstants : value;
  defaultExceptions : value;
  customExceptions : value;
  merged : value;
}.

(** Lines 66-82, before pruning. *)
Definition commandLineConfig (program : gmap string value)
    (defaultConfig customConfig : value) : run value :=
  let port :=
    or (Num (ToNumber (StringToNumber H) (option_value program "port")))
       (process_env "ADAMANT_HTTP_PORT") in
  defaultPort ←
    (if truthy port then mret port
     else customPort ← read customConfig "port";
          if truthy customPort then mret customPort
          else read defaultConfig "port");
  mret (Obj {[
    "port" := or port Null;
    "address" := option_value program "address";
    "consoleLogLevel" :=
      or (option_value program "log") (process_env "ADAMANT_CONSOLE_LOG_LEVEL");
    "db" := Obj {[ "database" := option_value program "database" ]};
    "loading" := Obj {[ "snapshotRound" := option_value program "snapshot" ]};
    "peers" := Obj {[
      "list" :=
        extractPeersList
          (or (option_value program "peers") (process_env "ADAMANT_PEERS"))
          defaultPort ]};
    "coverage" := Bool (strict_eq (process_env "NODE_ENV") (Str "test"))
  ]}).

(** Lines 40-90. *)
Definition loadSources (packageJson : value) (program : gmap string value)
    : run Loaded :=
  let network :=
    or (or (option_value program "network") (process_env "ADAMANT_NETWORK"))
       (Str "devnet") in
  genesisBlock ←
    loadJSONFile (Str ("./config/" ++ ToString network ++ "/genesisBlock.json"));
  defaultConstants ← required "../config/default/constants.js";
  customConstants ← required ("../config/" ++ ToString network ++ "/constants.js");
  defaultExceptions ← required "../config/default/exceptions.js";
  customExceptions ← required ("../config/" ++ ToString network ++ "/exceptions.js");
  defaultConfig ← loadJSONFile (Str "config/default/config.json");
  customConfig ←
    loadJSONFile
      (or (or (option_value program "config") (process_env "ADAMANT_CONFIG_FILE"))
          (Str ("config/" ++ ToString network ++ "/config.json")));
  version ← read packageJson "version";
  config ← read packageJson "config";
  minVersion ← read config "minVersion";
  nethash ← read genesisBlock "payloadHash";
  let runtimeConfig := Obj {[
    "network" := network;
    "root" := Str (rootPath H);
    "nonce" := Str (randomstring_generate H 16);
    "version" := version;
    "minVersion" := minVersion;
    "nethash" := nethash
  ]} in
  commandLineConfig ← commandLineConfig program defaultConfig customConfig;
  merged ← modelled (appConfig defaultConfig customConfig runtimeConfig commandLineConfig);
  mret {| genesisBlock := genesisBlock;
          defaultConstants := defaultConstants;
          customConstants := customConstants;
          defaultExceptions := defaultExceptions;
          customExceptions := customExceptions;
          merged := merged |}.

(** Lines 92-108. *)
Definition validateAndFinish (l : Loaded) : run value :=
  let appConfig := merged l in
  let valid := validate H appConfig in
  if negb valid then
    emit (console_error [Str "Failed to validate config data";
                         getLastErrors H appConfig]);;
    process_exit 1
  else
    appConfig ← assign appConfig "genesisBlock" (genesisBlock l);
    constants ← modelled (Lodash.merge (defaultConstants l) [customConstants l]);
    appConfig ← assign appConfig "constants" constants;
    exceptions ← modelled (Lodash.merge (defaultExceptions l) [customExceptions l]);
    appConfig ← assign appConfig "exceptions" exceptions;
    validateForce appConfig.

Definition Config (packageJson : value) (parseCommandLineOptions : bool) : run value :=
  program ← parseCommandLine packageJson parseCommandLineOptions;
  l ← loadSources packageJson program;
  validateAndFinish l.

End Loader.

(* ===================================================================== *)
(** * [cleanDeep] over a store of mutable objects *)
(* ===================================================================== *)

(** Arrays and objects are mutable and handled by reference.  To speak
    about what [cleanDeep] writes, this second embedding keeps them in a
    store: a value is a primitive or a reference, an object lives at a
    location, [result.push(value)] and [result[key] = value] overwrite the
    object at the location of [result].  The functions follow lines
    135-189 and lodash's [transform], [arrayEach] and [baseForOwn] as the
    first embedding does, statement by statement. *)
Module Heap.

Abbreviation loc := positive.

Inductive hvalue :=
| HUndefined
| HNull
| HBool (b : bool)
| HNum (n : number)
| HStr (s : string)
| Ref (l : loc).

Inductive object :=
| HArr (elems : list hvalue)
| HObj (props : gmap string hvalue).

Abbreviation heap := (gmap loc object).

(** [[]], [{}]: a new object at a location the store does not use yet. *)
Definition alloc (h : heap) (o : object) : loc * heap :=
  let l := fresh (dom h) in (l, <[l:=o]> h).

Definition isArray (h : heap) (v : hvalue) : bool :=
  match v with
  | Ref l => match h !! l with Some (HArr _) => true | _ => false end
  | _ => false
  end.

Definition isPlainObject (h : heap) (v : hvalue) : bool :=
  match v with
  | Ref l => match h !! l with Some (HObj _) => true | _ => false end
  | _ => false
  end.

(** [_.isEmpty(value)] and [!value.length], where the callback uses them:
    on a plain object and on an array. *)
Definition isEmpty (h : heap) (v : hvalue) : bool :=
  match v with
  | Ref l =>
      match h !! l with
      | Some (HObj props) => bool_decide (dom props = ∅)
      | _ => false
      end
  | _ => false
  end.

Definition noLength (h : heap) (v : hvalue) : bool :=
  match v with
  | Ref l =>
      match h !! l with
      | Some (HArr elems) => bool_decide (length elems = 0%nat)
      | _ => false
      end
  | _ => false
  end.

(** [a === b]: references are equal when they are the same location. *)
Definition strict_eq (a b : hvalue) : bool :=
  match a, b with
  | HUndefined, HUndefined | HNull, HNull => true
  | HBool x, HBool y => Bool.eqb x y
  | HNum (Int x), HNum (Int y) => Z.eqb x y
  | HStr x, HStr y => String.eqb x y
  | Ref x, Ref y => Pos.eqb x y
  | _, _ => false
  end.

Definition excluded (o : PruneOptions) (h : heap) (value : hvalue) : bool :=
  (emptyObjects o && isPlainObject h value && isEmpty h value)
  || (emptyArrays o && isArray h value && noLength h value)
  || (emptyStrings o && strict_eq value (HStr ""))
  || (nullValues o && strict_eq value HNull)
  || (undefinedValues o && strict_eq value HUndefined).

(** [result.push(value)] on an array, [result[key] = value] otherwise;
    an assignment to [__proto__] on an object that has no such property
    of its own creates none. *)
Definition push (result : object) (value : hvalue) (key : string) : object :=
  match result with
  | HArr r => HArr (r ++ [value])
  | HObj r =>
      if bool_decide (key = "__proto__" ∧ r !! key = None) then HObj r
      else HObj (<[key:=value]> r)
  end.

(** The callback: [result] is the location of the accumulator; the store
    goes in and comes out. [None]: the recursive call ran out of fuel or
    met a dangling reference. *)
Definition iteratee (o : PruneOptions)
    (cleanDeep : heap → hvalue → option (hvalue * heap))
    (result : loc) (h : heap) (value : hvalue) (key : string) : option heap :=
  '(value, h) ←
    (if isArray h value || isPlainObject h value then cleanDeep h value
     else Some (value, h));
  if excluded o h value then Some h
  else accumulator ← h !! result;
       Some (<[result := push accumulator value key]> h).

(** [arrayEach]: the length is read once, which fixes the indexes the
    loop visits; the elements are read as the loop reaches them. *)
Definition arrayEach (array : loc) (indexes : list nat)
    (iteratee : heap → hvalue → string → option heap) (h : heap) : option heap :=
  foldl (λ st index,
           h ← st;
           match h !! array with
           | Some (HArr elems) =>
               iteratee h (default HUndefined (elems !! index)) (pretty index)
           | _ => None
           end)
        (Some h) indexes.

(** [baseForOwn]: the keys are read once, the values as the loop reaches
    them. *)
Definition baseForOwn (object : loc) (keys : gmap string hvalue)
    (iteratee : heap → hvalue → string → option heap) (h : heap) : option heap :=
  map_fold (λ key _ st,
              h ← st;
              match h !! object with
              | Some (HObj props) =>
                  iteratee h (default HUndefined (props !! key)) key
              | _ => None
              end)
           (Some h) keys.

Fixpoint chars (s : string) : list hvalue :=
  match s with
  | EmptyString => []
  | String c s' => HStr (String c "") :: chars s'
  end.

(** The characters of a primitive string, which no store holds. *)
Definition stringEach (l : list hvalue)
    (iteratee : heap → hvalue → string → option heap) (h : heap) : option heap :=
  snd (foldl (λ '(index, st) v, (S index, h ← st; iteratee h v (pretty index)))
             (0%nat, Some h) l).

(** [_.transform(object, iteratee)]: the accumulator is allocated first,
    then the loop runs, and the reference to the accumulator is returned. *)
Definition transform (h : heap) (object : hvalue)
    (iteratee : loc → heap → hvalue → string → option heap)
    : option (hvalue * heap) :=
  match object with
  | Ref l =>
      match h !! l with
      | Some (HArr elems) =>
          let '(accumulator, h) := alloc h (HArr []) in
          h ← arrayEach l (seq 0 (length elems)) (iteratee accumulator) h;
          Some (Ref accumulator, h)
      | Some (HObj props) =>
          let '(accumulator, h) := alloc h (HObj ∅) in
          h ← baseForOwn l props (iteratee accumulator) h;
          Some (Ref accumulator, h)
      | None => None
      end
  | HStr s =>
      let '(accumulator, h) := alloc h (HObj ∅) in
      h ← stringEach (chars s) (iteratee accumulator) h;
      Some (Ref accumulator, h)
  | _ =>
      let '(accumulator, h) := alloc h (HObj ∅) in
      Some (Ref accumulator, h)
  end.

(** The recursion follows references, which may form a cycle (on which
    the JavaScript function overflows its stack); [fuel] bounds its depth. *)
Fixpoint cleanDeep (fuel : nat) (o : PruneOptions) (h : heap) (object : hvalue)
    : option (hvalue * heap) :=
  match fuel with
  | O => None
  | S fuel => transform h object (iteratee o (cleanDeep fuel o))
  end.

(** ** Reading a value back from the store *)

Definition map_mapM {A B} (f : A → option B) (m : gmap string A)
    : option (gmap string B) :=
  map_fold (λ key x acc, y ← f x; m' ← acc; Some (<[key:=y]> m')) (Some ∅) m.

(** The nested value that [v] denotes in [h], following references to
    depth [fuel] at most. *)
Fixpoint reify (fuel : nat) (h : heap) (v : hvalue) : option value :=
  match v with
  | HUndefined => Some Undefined
  | HNull => Some Null
  | HBool b => Some (Bool b)
  | HNum n => Some (Num n)
  | HStr s => Some (Str s)
  | Ref l =>
      match fuel with
      | O => None
      | S fuel =>
          match h !! l with
          | Some (HArr elems) => Arr <$> mapM (reify fuel h) elems
          | Some (HObj props) => Obj <$> map_mapM (reify fuel h) props
          | None => None
          end
      end
  end.

End Heap.

(* ===================================================================== *)
(** * Vocabulary of the statements *)
(* ===================================================================== *)

(** The five shapes the design document calls empty, each under its flag. *)
Definition emptyShape (o : PruneOptions) (v : value) : Prop :=
  (emptyArrays o = true ∧ v = Arr [])
  ∨ (emptyObjects o = true ∧ v = Obj ∅)
  ∨ (emptyStrings o = true ∧ v = Str "")
  ∨ (nullValues o = true ∧ v = Null)
  ∨ (undefinedValues o = true ∧ v = Undefined).

#[global] Instance emptyShape_dec (o : PruneOptions) (v : value) :
  Decision (emptyShape o v).
Proof.
  unfold emptyShape. destruct v as [| |b|x|[|c s]|[|e l]|m].
  - destruct (undefinedValues o); [left|right]; intuition congruence.
  - destruct (nullValues o); [left|right]; intuition congruence.
  - right; intuition congruence.
  - right; intuition congruence.
  - destruct (emptyStrings o); [left|right]; intuition congruence.
  - right; intuition congruence.
  - destruct (emptyArrays o); [left|right]; intuition congruence.
  - right; intuition congruence.
  - destruct (emptyObjects o); [|right; intuition congruence].
    destruct (decide (dom m = ∅)) as [Hd|Hd].
    + left. right. left. split; [done|]. f_equal. by apply dom_empty_iff_L.
    + right. intros [[_ ?]|[[_ [= ->]]|[[_ ?]|[[_ ?]|[_ ?]]]]]; done.
Defined.

(** A value once its own content has been pruned: containers are pruned
    recursively, primitives are left alone. *)
Definition cleanChild (o : PruneOptions) (v : value) : value :=
  pruneChild (cleanDeep o) v.

Definition isContainer (v : value) : bool :=
  match v with
  | Arr _ | Obj _ => true
  | _ => false
  end.

(** No mapping inside [v], at any depth, has a key named [__proto__]. *)
Fixpoint protoFree (v : value) : bool :=
  match v with
  | Arr l => forallb protoFree l
  | Obj m =>
      bool_decide (m !! "__proto__" = None)
      && map_fold (λ _ e acc, protoFree e && acc) true m
  | _ => true
  end.

(** The Pruner in the words of the design document (section 4.1): the
    children are pruned first, then every child that is one of the empty
    shapes is removed; the kept children of a sequence stay in order, and
    a scalar is left as it is. *)
Fixpoint specPrune (o : PruneOptions) (v : value) : value :=
  match v with
  | Arr l => Arr (filter (λ e, ¬ emptyShape o e) (map (specPrune o) l))
  | Obj m =>
      Obj (map_fold (λ key e acc,
                       let e := specPrune o e in
                       if decide (emptyShape o e) then acc else <[key:=e]> acc)
                    ∅ m)
  | _ => v
  end.

(** The two loops of [Lodash.baseMerge], under names of their own. *)
Definition mergeProps (obj src : gmap string value) : option (gmap string value) :=
  map_fold (λ key srcValue acc,
              obj ← acc; Lodash.mergeKey Lodash.baseMerge obj key srcValue)
           (Some obj) src.

Fixpoint mergeElems (src obj : list value) : option (list value) :=
  match src with
  | [] => Some obj
  | srcValue :: src' =>
      newValue ← Lodash.mergeSlot Lodash.baseMerge (head obj) srcValue;
      rest ← mergeElems src' (tail obj);
      Some (newValue :: rest)
  end.

(** What "the later value wins outright" leaves in the result when the
    later value is a mapping or a sequence: a copy of it, built by the
    same merge from an empty one, hence without the keys that a merge
    passes over. *)
Fixpoint copied (v : value) : value :=
  match v with
  | Arr l => Arr (map copied l)
  | Obj m =>
      Obj (map_fold (λ key e acc,
                       if Lodash.skipped ∅ key e then acc
                       else <[key := copied e]> acc)
                    ∅ m)
  | _ => v
  end.

(** What one key (or one index) holds after a merge step, given what the
    destination held ([None]: nothing) and what the source holds there:
    - mappings on both sides are merged recursively;
    - sequences on both sides are merged index by index;
    - a sequence arriving on a mapping whose [length] is an integer from
      [0] to [2^53 - 1] is merged index by index into the sequence of
      that mapping's values at the indexes below its [length]; there is
      no result when that [length] is above [2^32 - 1];
    - an [undefined] source value leaves a value already there;
    - in every other case the source value replaces what was there, a
      mapping or a sequence as a copy.
    A mapping arriving on a sequence is not covered by the value model,
    and no merge step within the model has that case. *)
Definition mergedSlot (objValue : option value) (srcValue : value)
    (result : value) : Prop :=
  match srcValue, objValue with
  | Obj s, Some (Obj o) => Lodash.baseMerge (Obj o) (Obj s) = Some result
  | Arr s, Some (Arr a) => Lodash.baseMerge (Arr a) (Arr s) = Some result
  | Obj _, Some (Arr _) => False
  | Arr s, Some (Obj o) =>
      if Lodash.isLength (o !! "length") then
        ∃ a, Lodash.copyArray o = Some a
             ∧ Lodash.baseMerge (Arr a) (Arr s) = Some result
      else result = copied srcValue
  | Undefined, Some v => result = v
  | _, _ => result = copied srcValue
  end.

(** A value in which a merge passes over no key, at any depth: its copy
    is the value itself. *)
Fixpoint unskipped (v : value) : bool :=
  match v with
  | Arr l => forallb unskipped l
  | Obj m =>
      map_fold (λ key e acc,
                  negb (Lodash.skipped ∅ key e) && unskipped e && acc)
               true m
  | _ => true
  end.

(** The merge rule in the words of the design document: mappings on both
    sides are merged key by key, and in every other case the later value
    replaces the earlier one, sequences included. *)
Fixpoint specMerge (earlier later : value) {struct later} : value :=
  match later, earlier with
  | Obj l, Obj e =>
      Obj (map_fold (λ key laterValue acc,
                       <[key := match e !! key with
                                | Some earlierValue => specMerge earlierValue laterValue
                                | None => laterValue
                                end]> acc)
                    e l)
  | _, _ => later
  end.

Definition specAppConfig (defaultConfig customConfig runtimeConfig commandLineConfig : value)
    : value :=
  specMerge (specMerge (specMerge defaultConfig customConfig) runtimeConfig)
            (cleanDeep defaultOptions commandLineConfig).

(** A defined primitive: what the design document calls a scalar. *)
Definition isScalar (v : value) : Prop :=
  match v with
  | Null | Bool _ | Num _ | Str _ => True
  | _ => False
  end.

(** A merge step seen from its result: [m] is [obj] after [src] has been
    merged into it, key by key for two objects, index by index for two
    arrays (the result is as long as the longer of the two).  On an
    object the merge passes over a mapping or a sequence under the key
    [__proto__], and over an [undefined] value under a name of
    [Object.prototype] that the object does not have itself. *)
Definition mergedProps (obj src m : gmap string value) : Prop :=
  ∀ k : string,
    match src !! k with
    | None => m !! k = obj !! k
    | Some sv =>
        if Lodash.skipped obj k sv then m !! k = obj !! k
        else ∃ result, m !! k = Some result ∧ mergedSlot (obj !! k) sv result
    end.

Definition mergedElems (obj src l : list value) : Prop :=
  length l = (length obj `max` length src)%nat
  ∧ ∀ i : nat,
      match src !! i with
      | None => l !! i = obj !! i
      | Some sv =>
          ∃ result, l !! i = Some result ∧ mergedSlot (obj !! i) sv result
      end.

(** Where a merge step gives no value of the model: somewhere a mapping
    of the source arrives on a sequence of the destination, or a sequence
    arrives on a mapping whose [length] is an integer from [2^32] to
    [2^53 - 1]; at the top, also when the two sides are not two mappings
    or two sequences. *)
Definition clashSlot (clashes : value → value → bool)
    (objValue : option value) (srcValue : value) : bool :=
  match srcValue, objValue with
  | Obj _, Some (Arr _) => true
  | Obj _, Some (Obj o) => clashes (Obj o) srcValue
  | Arr _, Some (Arr a) => clashes (Arr a) srcValue
  | Arr _, Some (Obj o) =>
      if Lodash.isLength (o !! "length") then
        match Lodash.copyArray o with
        | Some a => clashes (Arr a) srcValue
        | None => true
        end
      else false
  | _, _ => false
  end.

Fixpoint clashes (object source : value) {struct source} : bool :=
  match source, object with
  | Obj src, Obj obj =>
      map_fold (λ key srcValue acc,
                  acc || (negb (Lodash.skipped obj key srcValue)
                          && clashSlot clashes (obj !! key) srcValue))
               false src
  | Arr src, Arr obj =>
      (fix each (src obj : list value) : bool :=
         match src with
         | [] => false
         | srcValue :: src' =>
             clashSlot clashes (head obj) srcValue || each src' (tail obj)
         end) src obj
  | _, _ => true
  end.

(** The two loops of [clashes], under names of their own. *)
Definition clashProps (obj src : gmap string value) : bool :=
  map_fold (λ key srcValue acc,
              acc || (negb (Lodash.skipped obj key srcValue)
                      && clashSlot clashes (obj !! key) srcValue))
           false src.

Fixpoint clashElems (src obj : list value) : bool :=
  match src with
  | [] => false
  | srcValue :: src' =>
      clashSlot clashes (head obj) srcValue || clashElems src' (tail obj)
  end.

(** Array-like sources for the counterexample of the merge rule. *)
Definition lengthDefaults : value :=
  Obj {[ "list" := Obj {[ "length" := Num (Int 2); "0" := Num (Int 5) ]} ]}.
Definition protoNetwork : value :=
  Obj {[ "__proto__" := Obj {[ "admin" := Bool true ]} ]}.

(** Sample sources. *)
Definition n (z : Z) : value := Num (Int z).

Definition peersDefaults : value := Obj {[ "list" := Arr [n 1; n 2; n 3] ]}.
Definition peersCli : value := Obj {[ "list" := Arr [n 9] ]}.

Definition scalarDefaults : value := Obj {[ "port" := n 1; "host" := Str "a" ]}.
Definition scalarNetwork : value := Obj {[ "port" := n 2 ]}.
Definition scalarCli : value := Obj {[ "host" := Str "b" ]}.

Definition nestedDefaults : value :=
  Obj {[ "db" := Obj {[ "name" := Str "x"; "pool" := n 5 ]} ]}.
Definition nestedCli : value := Obj {[ "db" := Obj {[ "name" := Str "y" ]} ]}.

(** The peer record of one entry of the list: the first [:]-separated
    segment is the host; the second one is the port, as the string it is,
    unless it is missing or empty, in which case the default port stands
    in. *)
Definition peerRecord (defaultPort : value) (entry : string) : value :=
  let segments := split ":" entry in
  Obj {[ "ip" := Str (default "" (head segments));
         "wsPort" := match segments !! 1%nat with
                     | None | Some "" => defaultPort
                     | Some port => Str port
                     end ]}.

(** The config after the override has disabled forced forging. *)
Definition forceDisabled (c f : gmap string value) : value :=
  Obj (<["forging" := Obj (<["force" := Bool false]> f)]> c).

(** [nethash] appears in [hashes]. *)
Definition listed (hashes : list value) (nethash : value) : bool :=
  existsb (λ h, strict_eq h nethash) hashes.

(** ** A sample host *)

(** A toy command line: [-p <port>] is the only flag read. *)
Fixpoint sampleParse (argv : list string) (program : gmap string value)
    : gmap string value :=
  match argv with
  | [] => program
  | flag :: rest =>
      match rest with
      | arg :: rest' =>
          if String.eqb flag "-p"
          then sampleParse rest' (<["port" := Str arg]> program)
          else sampleParse rest program
      | [] => program
      end
  end.

Definition sampleFiles (path : string) : string + value :=
  if String.eqb path "/opt/adamant/./config/testnet/genesisBlock.json" then
    inr (Obj {[ "payloadHash" := Str "H1" ]})
  else if String.eqb path "/opt/adamant/config/default/config.json" then
    inr (Obj {[ "port" := n 36666; "address" := Str "0.0.0.0";
                "forging" := Obj {[ "force" := Bool true ]} ]})
  else if String.eqb path "/opt/adamant/config/testnet/config.json" then
    inr (Obj {[ "port" := n 36667 ]})
  else inl ("ENOENT: no such file or directory, open '" ++ path ++ "'").

Definition sampleModules (module : string) : option value :=
  if String.eqb module "../config/default/constants.js" then
    Some (Obj {[ "nethashes" := Arr [Str "H0"] ]})
  else if String.eqb module "../config/testnet/constants.js" then
    Some (Obj {[ "nethashes" := Arr [Str "H1"] ]})
  else if String.eqb module "../config/default/exceptions.js" then Some (Obj ∅)
  else if String.eqb module "../config/testnet/exceptions.js" then Some (Obj ∅)
  else None.

(** The host of a test net node started with [-p 36668]; [valid] is the
    verdict of the schema validator. *)
Definition sampleHost (valid : bool) : Host := {|
  argv := ["node"; "app.js"; "-p"; "36668"];
  program := ∅;
  parse := λ argv program, mret (sampleParse argv program);
  env := {[ "ADAMANT_NETWORK" := "testnet" ]};
  StringToNumber := λ s, if String.eqb s "36668" then Int 36668 else NaN;
  rootPath := "/opt/adamant";
  path_resolve := λ root path, root ++ "/" ++ path;
  readJSON := sampleFiles;
  require := sampleModules;
  randomstring_generate := λ _, "0123456789abcdef";
  validate := λ _, valid;
  getLastErrors := λ _, Arr [Str "schema violation"];
|}.

Definition samplePackage : value :=
  Obj {[ "version" := Str "0.8.0";
         "config" := Obj {[ "minVersion" := Str "0.6.0" ]} ]}.

(** ** Vocabulary for the store *)

(** [f] maps what a key holds on one side to what it holds on the other,
    and both sides have the same keys. *)
Definition rel_opt {A B} (f : A → option B) (a : option A) (b : option B) : Prop :=
  match a, b with
  | Some x, Some y => f x = Some y
  | None, None => True
  | _, _ => False
  end.

(** Between two stores, every object but the one at [acc] is kept. *)
Definition frame (acc : positive) (hs h : gmap positive Heap.object) : Prop :=
  ∀ l x, l ≠ acc → hs !! l = Some x → h !! l = Some x.

(** What a recursive call of [Heap.cleanDeep] owes its caller on values
    that denote a nested value at depth [n]: it returns, the store it
    started from is still there, and the result denotes the pruned value
    in the part of the store that is new. *)
Definition returnsFresh (o : PruneOptions) (n : nat)
    (rec : gmap positive Heap.object → Heap.hvalue →
           option (Heap.hvalue * gmap positive Heap.object)) : Prop :=
  ∀ h x v,
    Heap.reify n h x = Some v →
    ∃ h' r, rec h x = Some (r, h') ∧ h ⊆ h'
            ∧ Heap.reify (S n) (h' ∖ h) r = Some (cleanDeep o v).

(** A sample store: an object at location 1 whose properties refer to
    two arrays, one of them shared, and the nested value it denotes. *)
Definition sampleStore : gmap positive Heap.object :=
  {[ 1%positive := Heap.HObj {[ "a" := Heap.HNum (Int 0);
                                "b" := Heap.Ref 2;
                                "c" := Heap.HNull;
                                "d" := Heap.Ref 3 ]};
     2%positive := Heap.HArr [Heap.HNull; Heap.HStr ""; Heap.Ref 3];
     3%positive := Heap.HArr [Heap.HStr "x"; Heap.HUndefined; Heap.HBool false] ]}.

Definition sampleValue : value :=
  Obj {[ "a" := n 0;
         "b" := Arr [Null; Str ""; Arr [Str "x"; Undefined; Bool false]];
         "c" := Null;
         "d" := Arr [Str "x"; Undefined; Bool false] ]}.

(* ===================================================================== *)
(** * Vocabulary of the further properties *)
(* ===================================================================== *)

(** Nothing strictly inside [v] passes one of the five tests of the
    callback: [v] holds nothing that [cleanDeep] would remove. *)
Fixpoint pruned (o : PruneOptions) (v : value) : bool :=
  match v with
  | Arr l => forallb (λ e, negb (excluded o e) && pruned o e) l
  | Obj m => map_fold (λ _ e acc, negb (excluded o e) && pruned o e && acc) true m
  | _ => true
  end.

(** Every flag switched off. *)
Definition noOptions : PruneOptions :=
  {| emptyArrays := false; emptyObjects := false; emptyStrings := false;
     nullValues := false; undefinedValues := false |}.

(** How many times the character [c] occurs in [s]. *)
Fixpoint occurrences (c : ascii) (s : string) : nat :=
  match s with
  | EmptyString => 0%nat
  | String a s' => ((if Ascii.eqb a c then 1 else 0) + occurrences c s')%nat
  end.

(** The records of a parsed peers list. *)
Definition peersOf (v : value) : list value :=
  match v with
  | Arr l => l
  | _ => []
  end.

(** [undefined] or [null]: what a property read raises a TypeError on. *)
Definition nullish (v : value) : Prop := v = Undefined ∨ v = Null.

(** The keys of a source that a merge assigns on a plain object: all but
    [__proto__] when it holds a mapping or a sequence, and the names of
    [Object.prototype] that hold [undefined]. *)
Definition mergedKeys (src : gmap string value) : gset string :=
  dom (filter (λ kv, Lodash.skipped ∅ kv.1 kv.2 = false) src).

(** Merging a source value into the slot that already holds the result
    of merging it. *)
Definition settled (sv : value) : Prop :=
  ∀ (o : option value) (r : value),
    Lodash.mergeSlot Lodash.baseMerge o sv = Some r →
    Lodash.mergeSlot Lodash.baseMerge (Some r) sv = Some r.

(** ** The sources [Config] builds *)

(** Line 40: the network the node runs on. *)
Definition networkOf (H : Host) (program : gmap string value) : value :=
  or (or (option_value program "network") (process_env H "ADAMANT_NETWORK"))
     (Str "devnet").

(** Lines 57-64: the runtime source. *)
Definition runtimeSource (H : Host) (network version minVersion nethash : value)
    : gmap string value :=
  {[ "network" := network;
     "root" := Str (rootPath H);
     "nonce" := Str (randomstring_generate H 16);
     "version" := version;
     "minVersion" := minVersion;
     "nethash" := nethash ]}.

(** [+program.port || process.env.ADAMANT_HTTP_PORT], the port the command
    line or the environment asks for. *)
Definition requestedPort (H : Host) (program : gmap string value) : value :=
  or (Num (ToNumber (StringToNumber H) (option_value program "port")))
     (process_env H "ADAMANT_HTTP_PORT").

(** Lines 66-82: the command-line source, before pruning. *)
Definition cliSource (H : Host) (program : gmap string value)
    (defaultPort : value) : gmap string value :=
  {[ "port" := or (requestedPort H program) Null;
     "address" := option_value program "address";
     "consoleLogLevel" :=
       or (option_value program "log") (process_env H "ADAMANT_CONSOLE_LOG_LEVEL");
     "db" := Obj {[ "database" := option_value program "database" ]};
     "loading" := Obj {[ "snapshotRound" := option_value program "snapshot" ]};
     "peers" := Obj {[
       "list" :=
         extractPeersList
           (or (option_value program "peers") (process_env H "ADAMANT_PEERS"))
           defaultPort ]};
     "coverage" := Bool (strict_eq (process_env H "NODE_ENV") (Str "test")) ]}.

(** The paths of the three JSON files, as [loadJSONFile] resolves them. *)
Definition genesisPath (H : Host) (program : gmap string value) : string :=
  path_resolve H (rootPath H)
    ("./config/" ++ ToString (networkOf H program) ++ "/genesisBlock.json").

Definition defaultConfigPath (H : Host) : string :=
  path_resolve H (rootPath H) "config/default/config.json".

Definition customConfigFile (H : Host) (program : gmap string value) : value :=
  or (or (option_value program "config") (process_env H "ADAMANT_CONFIG_FILE"))
     (Str ("config/" ++ ToString (networkOf H program) ++ "/config.json")).

(** The sample host on a machine where no file can be read. *)
Definition unreadableHost : Host := {|
  argv := argv (sampleHost true);
  program := program (sampleHost true);
  parse := parse (sampleHost true);
  env := env (sampleHost true);
  StringToNumber := StringToNumber (sampleHost true);
  rootPath := rootPath (sampleHost true);
  path_resolve := path_resolve (sampleHost true);
  readJSON := λ path, inl ("ENOENT: no such file or directory, open '" ++ path ++ "'");
  require := require (sampleHost true);
  randomstring_generate := randomstring_generate (sampleHost true);
  validate := validate (sampleHost true);
  getLastErrors := getLastErrors (sampleHost true);
|}.

(** What [Config] returns on the sample host: the config of
    [Config_sample]. *)
Definition sampleConfig : value :=
  Obj {[ "port" := n 36668;
         "address" := Str "0.0.0.0";
         "forging" := Obj {[ "force" := Bool false ]};
         "network" := Str "testnet";
         "root" := Str "/opt/adamant";
         "nonce" := Str "0123456789abcdef";
         "version" := Str "0.8.0";
         "minVersion" := Str "0.6.0";
         "nethash" := Str "H1";
         "coverage" := Bool false;
         "genesisBlock" := Obj {[ "payloadHash" := Str "H1" ]};
         "constants" := Obj {[ "nethashes" := Arr [Str "H1"] ]};
         "exceptions" := Obj ∅ ]}.

Definition sampleNotice : list event :=
  [console_log [Str "Forced forging disabled for nethash"; Str "H1"]].

Definition sampleProgram : gmap string value := {[ "port" := Str "36668" ]}.

(* ===================================================================== *)
(** * Induction over nested values *)
(* ===================================================================== *)

Section value_induction.

Lemma size_elem (l : list value) (v : value) :
  v ∈ l → (size v < size (Arr l))%nat.
Proof.
  induction 1 as [v l|v w l _ IH]; simpl in *; lia.
Qed.

Lemma size_prop (m : gmap string value) (k : string) (v : value) :
  m !! k = Some v → (size v < size (Obj m))%nat.
Proof.
  intros Hk. simpl.
  rewrite (map_fold_delete_L _ _ k v m); [lia| |done].
  intros; lia.
Qed.

(** Structural induction with the hypotheses a nested type needs: the
    property holds for the elements of an array and for the property
    values of an object. *)
Lemma value_ind' (P : value → Prop) :
  P Undefined → P Null → (∀ b, P (Bool b)) → (∀ n, P (Num n)) →
  (∀ s, P (Str s)) →
  (∀ l, Forall P l → P (Arr l)) →
  (∀ m, map_Forall (λ _, P) m → P (Obj m)) →
  ∀ v, P v.
Proof.
  intros HU HN HB HNum HS HA HO v.
  remember (size v) as n eqn:Hn. revert v Hn.
  induction (lt_wf n) as [n _ IH]. intros [] ->; auto.
  - apply HA, Forall_forall. intros x Hx.
    eapply IH; [|reflexivity]. by apply size_elem.
  - apply HO. intros k x Hk.
    eapply IH; [|reflexivity]. by eapply size_prop.
Qed.

End value_induction.

(* ===================================================================== *)
(** * [cleanDeep] *)
(* ===================================================================== *)

Section cleanDeep_facts.
Context (o : PruneOptions).

Lemma iteratee_visit (f : value → value) (result v : value) (key : string) :
  iteratee o f result v key =
    match visit o f v with
    | Some v' => append result v' key
    | None => result
    end.
Proof.
  unfold iteratee, visit, pruneChild.
  destruct v; simpl; try destruct (excluded o _); done.
Qed.

(** The array loop appends the visited values in order. *)
Lemma arrayEach_Arr (f : value → value) (l acc : list value) :
  Lodash.arrayEach l (iteratee o f) (Arr acc) = Arr (acc ++ omap (visit o f) l).
Proof.
  unfold Lodash.arrayEach. generalize 0%nat as i. revert acc.
  induction l as [|v l IH]; intros acc i; simpl.
  - by rewrite app_nil_r.
  - rewrite iteratee_visit. destruct (visit o f v) as [v'|]; simpl.
    + rewrite IH. by rewrite <-app_assoc.
    + apply IH.
Qed.

Lemma cleanDeep_Arr (l : list value) :
  cleanDeep o (Arr l) = Arr (omap (visit o (cleanDeep o)) l).
Proof. simpl. by rewrite arrayEach_Arr. Qed.

(** On an accumulator that has no property [__proto__] the callback
    never creates one. *)
Lemma append_Obj (r : gmap string value) (v : value) (key : string) :
  r !! "__proto__" = None →
  append (Obj r) v key
  = Obj (if decide (key = "__proto__") then r else <[key:=v]> r).
Proof.
  intros Hr. unfold append. case_bool_decide as Hk; case_decide as Hk'; try done.
  - by destruct Hk as [? _].
  - subst. by destruct Hk.
Qed.

(** The object loop keeps the visited values under their keys, except
    under [__proto__]. *)
Lemma cleanDeep_Obj (m : gmap string value) :
  cleanDeep o (Obj m)
  = Obj (delete "__proto__" (omap (visit o (cleanDeep o)) m)).
Proof.
  simpl.
  apply (map_fold_weak_ind
           (λ r m, r = Obj (delete "__proto__" (omap (visit o (cleanDeep o)) m)))).
  - by rewrite omap_empty, delete_empty.
  - intros k v m' r Hk ->. rewrite iteratee_visit.
    destruct (visit o (cleanDeep o) v) as [v'|] eqn:Hv; cbv iota.
    + rewrite append_Obj by apply lookup_delete_eq.
      erewrite omap_insert_Some by done. case_decide as Hp.
      * subst. by rewrite delete_insert_eq.
      * by rewrite delete_insert_ne.
    + rewrite omap_insert_None by done.
      rewrite (delete_id _ k); [done|]. by rewrite lookup_omap, Hk.
Qed.

Lemma cleanDeep_Obj_lookup (m : gmap string value) (k : string) :
  own (cleanDeep o (Obj m)) k
  = if decide (k = "__proto__") then None
    else m !! k ≫= visit o (cleanDeep o).
Proof.
  rewrite cleanDeep_Obj. cbn [own]. case_decide as Hk.
  - subst. apply lookup_delete_eq.
  - by rewrite lookup_delete_ne, lookup_omap.
Qed.

(** A one-character string passes every test of the callback. *)
Lemma visit_char (f : value → value) (c : ascii) :
  visit o f (Str (String c "")) = Some (Str (String c "")).
Proof. destruct o as [[] [] [] [] []]; reflexivity. Qed.

(** On a string the result is an object holding the characters. *)
Lemma cleanDeep_Str (s : string) :
  ∃ m, cleanDeep o (Str s) = Obj m
       ∧ map_Forall (λ _ v, ∃ c, v = Str (String c "")) m
       ∧ m !! "__proto__" = None.
Proof.
  simpl. unfold Lodash.arrayEach.
  assert (Hacc : map_Forall (λ (_ : string) v, ∃ c, v = Str (String c ""))
                   (∅ : gmap string value)
                 ∧ (∅ : gmap string value) !! "__proto__" = None).
  { split; [apply map_Forall_empty|apply lookup_empty]. }
  revert Hacc. generalize 0%nat as i. generalize (∅ : gmap string value) as acc.
  induction s as [|c s IH]; intros acc i [Hacc Hp]; simpl; [by eexists|].
  rewrite iteratee_visit, visit_char. cbv iota.
  rewrite append_Obj by done. apply IH. case_decide as Hk; [done|].
  split; [apply map_Forall_insert_2; eauto|by rewrite lookup_insert_ne].
Qed.

(** The result of [cleanDeep] is an array for an array and an object for
    everything else. *)
Lemma cleanDeep_container (v : value) :
  (∃ l, cleanDeep o v = Arr l) ∨ (∃ m, cleanDeep o v = Obj m).
Proof.
  destruct v; try (right; eexists; reflexivity).
  - right. destruct (cleanDeep_Str s) as (m & -> & _ & _). by eexists.
  - left. rewrite cleanDeep_Arr. by eexists.
  - right. rewrite cleanDeep_Obj. by eexists.
Qed.

Lemma pruneChild_cleanDeep (v : value) :
  pruneChild (cleanDeep o) (cleanDeep o v) = cleanDeep o (cleanDeep o v).
Proof. by destruct (cleanDeep_container v) as [[? ->]|[? ->]]. Qed.

(** The tests of the callback, value by value. *)
Lemma excluded_cases (v : value) :
  excluded o v =
    match v with
    | Undefined => undefinedValues o
    | Null => nullValues o
    | Str "" => emptyStrings o
    | Arr [] => emptyArrays o
    | Obj m => emptyObjects o && bool_decide (dom m = ∅)
    | _ => false
    end.
Proof.
  destruct o as [[] [] [] [] []], v as [| |?|[?|]|[|??]|[|??]|?];
    unfold excluded; cbn; rewrite ?orb_false_r; reflexivity.
Qed.

(** They single out the five empty shapes. *)
Lemma excluded_emptyShape (v : value) :
  excluded o v = true ↔ emptyShape o v.
Proof.
  rewrite excluded_cases. unfold emptyShape.
  destruct v as [| |?|?|[|??]|[|??]|m]; try (intuition congruence).
  rewrite andb_true_iff, bool_decide_eq_true, dom_empty_iff_L.
  split.
  - intros [? ->]. auto.
  - intros [[_ ?]|[[? [= ->]]|[[_ ?]|[[_ ?]|[_ ?]]]]]; done.
Qed.

End cleanDeep_facts.

Section cleanDeep_shape.
Context (o : PruneOptions).

Lemma visit_emptyShape (v : value) :
  visit o (cleanDeep o) v =
    if decide (emptyShape o (cleanChild o v)) then None
    else Some (cleanChild o v).
Proof.
  unfold visit, cleanChild.
  destruct (excluded o _) eqn:E; case_decide as Hs; try done.
  - apply excluded_emptyShape in E. done.
  - apply excluded_emptyShape in Hs. congruence.
Qed.

Lemma omap_visit_filter (l : list value) :
  omap (visit o (cleanDeep o)) l =
    filter (λ v, ¬ emptyShape o v) (cleanChild o <$> l).
Proof.
  induction l as [|v l IH]; [done|]. cbn [omap list_omap fmap list_fmap].
  rewrite visit_emptyShape. case_decide.
  - rewrite filter_cons_False by tauto. apply IH.
  - rewrite filter_cons_True by done. by rewrite <-IH.
Qed.

(** A visited value that was kept is kept again, unchanged, as soon as
    pruning it twice is pruning it once. *)
Lemma visit_stable (v v' : value) :
  cleanDeep o (cleanDeep o v) = cleanDeep o v →
  visit o (cleanDeep o) v = Some v' →
  visit o (cleanDeep o) v' = Some v'.
Proof.
  unfold visit. intros Hidem.
  destruct (excluded o (pruneChild (cleanDeep o) v)) eqn:E; [done|].
  intros [= <-].
  assert (pruneChild (cleanDeep o) (pruneChild (cleanDeep o) v)
          = pruneChild (cleanDeep o) v) as ->.
  { destruct v as [| |?|?|?|l|m]; try done.
    - change (pruneChild (cleanDeep o) (Arr l)) with (cleanDeep o (Arr l)).
      by rewrite pruneChild_cleanDeep, Hidem.
    - change (pruneChild (cleanDeep o) (Obj m)) with (cleanDeep o (Obj m)).
      by rewrite pruneChild_cleanDeep, Hidem. }
  by rewrite E.
Qed.

End cleanDeep_shape.

Section cleanDeep_spec.
Context (o : PruneOptions).

Lemma protoFree_Arr (l : list value) :
  protoFree (Arr l) = true ↔ Forall (λ e, protoFree e = true) l.
Proof.
  cbn [protoFree]. induction l as [|e l IH]; cbn [forallb].
  - split; [constructor|done].
  - by rewrite andb_true_iff, Forall_cons, IH.
Qed.

Lemma protoFree_Obj (m : gmap string value) :
  protoFree (Obj m) = true
  ↔ m !! "__proto__" = None ∧ map_Forall (λ _ e, protoFree e = true) m.
Proof.
  cbn [protoFree]. rewrite andb_true_iff, bool_decide_eq_true.
  apply and_iff_compat_l.
  apply (map_fold_weak_ind
           (λ (r : bool) m, r = true ↔ map_Forall (λ _ e, protoFree e = true) m)).
  - split; [intros _; apply map_Forall_empty|done].
  - intros k v m' r Hk IH. rewrite andb_true_iff, IH.
    by rewrite map_Forall_insert.
Qed.

Lemma specPrune_Obj (m : gmap string value) :
  specPrune o (Obj m)
  = Obj (omap (λ e, if decide (emptyShape o (specPrune o e)) then None
                    else Some (specPrune o e)) m).
Proof.
  cbn [specPrune]. f_equal.
  apply (map_fold_weak_ind
           (λ r m, r = omap (λ e, if decide (emptyShape o (specPrune o e))
                                  then None else Some (specPrune o e)) m)).
  - by rewrite omap_empty.
  - intros k v m' r Hk ->. cbv zeta. case_decide as He.
    + rewrite omap_insert_None by (by rewrite decide_True).
      rewrite delete_id; [done|]. by rewrite lookup_omap, Hk.
    + by erewrite omap_insert_Some by (by rewrite decide_False).
Qed.

(** On an input without [__proto__] keys the code and the Pruner of the
    design document agree, also under the callback. *)
Lemma cleanDeep_specPrune (x : value) :
  protoFree x = true →
  cleanChild o x = specPrune o x
  ∧ (isContainer x = true → cleanDeep o x = specPrune o x).
Proof.
  induction x as [| |b|n|s|l IH|m IH] using value_ind'; try done.
  - intros Hl%protoFree_Arr.
    assert (cleanDeep o (Arr l) = specPrune o (Arr l)) as Heq; [|done].
    rewrite cleanDeep_Arr, omap_visit_filter. cbn [specPrune]. do 2 f_equal.
    induction IH as [|v l Hv _ IHl]; [done|].
    apply Forall_cons in Hl as [Hv' Hl]. cbn [fmap list_fmap map].
    f_equal; [by apply Hv|by apply IHl].
  - intros [Hp Hm]%protoFree_Obj.
    assert (cleanDeep o (Obj m) = specPrune o (Obj m)) as Heq; [|done].
    rewrite cleanDeep_Obj, specPrune_Obj. f_equal.
    rewrite delete_id by (by rewrite lookup_omap, Hp).
    apply map_eq. intros k. rewrite !lookup_omap.
    destruct (m !! k) as [v|] eqn:Hk; [|done]. cbn [mbind option_bind].
    rewrite visit_emptyShape.
    by destruct (IH k v Hk (Hm k v Hk)) as [-> _].
Qed.

End cleanDeep_spec.

(** ** C2 *)

(** C2, as the design document states it, fails on the code: the key
    [__proto__] of [{"__proto__": 0}] holds [0], which is none of the
    empty shapes, and the result of [cleanDeep] does not have the key,
    where the Pruner of the design document keeps it. *)
Lemma cleanDeep_proto_counterexample :
  cleanDeep defaultOptions (Obj {[ "__proto__" := Num (Int 0) ]}) = Obj ∅
  ∧ ¬ emptyShape defaultOptions (Num (Int 0))
  ∧ specPrune defaultOptions (Obj {[ "__proto__" := Num (Int 0) ]})
    = Obj {[ "__proto__" := Num (Int 0) ]}
  ∧ ¬ (∀ (m : gmap string value) (k : string),
         own (cleanDeep defaultOptions (Obj (<[k := Num (Int 0)]> m))) k
         = Some (Num (Int 0))).
Proof.
  split; [by vm_compute|split; [|split]].
  - intros [[_ ?]|[[_ ?]|[[_ ?]|[[_ ?]|[_ ?]]]]]; done.
  - by vm_compute.
  - intros Hall. specialize (Hall ∅ "__proto__").
    vm_compute in Hall. discriminate Hall.
Qed.

(** C2, amended. On every array or object in which no mapping has a key
    named [__proto__], [cleanDeep] is the Pruner of the design document:
    bottom-up, it removes exactly the five empty shapes (empty sequence,
    empty mapping, empty string, null, undefined), each under its flag,
    and keeps every other value, the kept elements of a sequence in their
    order.  On every object, a key other than [__proto__] whose value is
    [0] or [false] is never removed, whatever the flags. *)
Theorem cleanDeep_removes_exactly_empty_shapes (o : PruneOptions) :
  (∀ x : value,
     isContainer x = true → protoFree x = true →
     cleanDeep o x = specPrune o x)
  ∧ (∀ (m : gmap string value) (k : string),
       k ≠ "__proto__" →
       own (cleanDeep o (Obj (<[k := Num (Int 0)]> m))) k = Some (Num (Int 0))
       ∧ own (cleanDeep o (Obj (<[k := Bool false]> m))) k = Some (Bool false)).
Proof.
  split.
  - intros x Hc Hp. by apply cleanDeep_specPrune.
  - intros m k Hk. rewrite !cleanDeep_Obj_lookup, !decide_False by done.
    rewrite !lookup_insert_eq. cbn [mbind option_bind].
    rewrite !visit_emptyShape. unfold cleanChild. cbn [pruneChild].
    split; case_decide as Hs; try done;
      destruct Hs as [[_ ?]|[[_ ?]|[[_ ?]|[[_ ?]|[_ ?]]]]]; done.
Qed.

Lemma cleanDeep_removes_exactly_empty_shapes_witness :
  cleanDeep defaultOptions
    (Obj {[ "port" := Num (Int 0); "address" := Str "";
            "peers" := Obj {[ "list" := Arr [] ]} ]})
  = specPrune defaultOptions
      (Obj {[ "port" := Num (Int 0); "address" := Str "";
              "peers" := Obj {[ "list" := Arr [] ]} ]})
  ∧ own (cleanDeep defaultOptions
           (Obj (<["port" := Num (Int 0)]> {[ "address" := Str "" ]})))
        "port" = Some (Num (Int 0)).
Proof.
  split.
  - apply (proj1 (cleanDeep_removes_exactly_empty_shapes defaultOptions));
      vm_compute; reflexivity.
  - refine (proj1 (proj2 (cleanDeep_removes_exactly_empty_shapes defaultOptions)
                     {[ "address" := Str "" ]} "port" _)).
    discriminate.
Defined.

(** ** C7 *)

(** C7. Pruning is idempotent: for every value and every setting of the
    flags, pruning the pruned value gives the pruned value. *)
Theorem cleanDeep_idempotent (o : PruneOptions) (x : value) :
  cleanDeep o (cleanDeep o x) = cleanDeep o x.
Proof.
  induction x as [| |b|n|s|l IH|m IH] using value_ind';
    try (simpl; by rewrite map_fold_empty).
  - destruct (cleanDeep_Str o s) as (m & -> & Hm & Hproto).
    rewrite cleanDeep_Obj. f_equal. apply map_eq. intros k.
    destruct (decide ("__proto__" = k)) as [<-|Hp].
    + by rewrite lookup_delete_eq.
    + rewrite lookup_delete_ne, lookup_omap by done.
      destruct (m !! k) as [v|] eqn:Hk; [|done].
      destruct (Hm k v Hk) as [c ->]. simpl. apply visit_char.
  - rewrite !cleanDeep_Arr. f_equal.
    induction IH as [|v l Hv _ IHl]; [done|].
    cbn [omap list_omap].
    destruct (visit o (cleanDeep o) v) as [v'|] eqn:E; [|done].
    cbn [omap list_omap]. rewrite (visit_stable o v v' Hv E).
    by f_equal.
  - rewrite !cleanDeep_Obj. f_equal. apply map_eq. intros k.
    destruct (decide ("__proto__" = k)) as [<-|Hp].
    + by rewrite !lookup_delete_eq.
    + rewrite !lookup_delete_ne, !lookup_omap, lookup_delete_ne, lookup_omap
        by done.
      destruct (m !! k) as [v|] eqn:Hk; [|done].
      simpl. destruct (visit o (cleanDeep o) v) as [v'|] eqn:E; [|done].
      simpl. eapply visit_stable; [|done]. by eapply IH.
Qed.

(* ===================================================================== *)
(** * [_.merge] *)
(* ===================================================================== *)

Section merge_facts.

Lemma baseMerge_Obj (obj src : gmap string value) :
  Lodash.baseMerge (Obj obj) (Obj src) = Obj <$> mergeProps obj src.
Proof. reflexivity. Qed.

Lemma baseMerge_Arr (obj src : list value) :
  Lodash.baseMerge (Arr obj) (Arr src) = Arr <$> mergeElems src obj.
Proof. reflexivity. Qed.

(** Whether a key is passed over depends on the object only through what
    it holds under that key. *)
Lemma skipped_lookup (obj obj' : gmap string value) (k : string) (sv : value) :
  obj !! k = obj' !! k → Lodash.skipped obj k sv = Lodash.skipped obj' k sv.
Proof. intros Hk. unfold Lodash.skipped. by rewrite Hk. Qed.

(** The loop over the properties of the source returns [m] exactly when
    every key of the source holds in [m] what the merge of that one key
    gives, and every other key is untouched: the keys do not interfere. *)
Lemma mergeProps_Some (obj src m : gmap string value) :
  mergeProps obj src = Some m
  ↔ ∀ k : string,
      match src !! k with
      | None => m !! k = obj !! k
      | Some sv =>
          if Lodash.skipped obj k sv then m !! k = obj !! k
          else ∃ nv, Lodash.mergeSlot Lodash.baseMerge (obj !! k) sv = Some nv
                     ∧ m !! k = Some nv
      end.
Proof.
  unfold mergeProps. revert m.
  apply (map_fold_weak_ind (λ r src, ∀ m, r = Some m ↔ ∀ k : string,
    match src !! k with
    | None => m !! k = obj !! k
    | Some sv =>
        if Lodash.skipped obj k sv then m !! k = obj !! k
        else ∃ nv, Lodash.mergeSlot Lodash.baseMerge (obj !! k) sv = Some nv
                   ∧ m !! k = Some nv
    end)).
  - intros m. split.
    + intros [= <-] k. by rewrite lookup_empty.
    + intros Hm. f_equal. apply map_eq. intros k.
      specialize (Hm k). by rewrite lookup_empty in Hm.
  - intros i x src' r Hi IH m. split.
    + intros Hm k. destruct r as [obj'|]; [|done].
      pose proof (proj1 (IH obj') eq_refl) as IH'.
      assert (obj' !! i = obj !! i) as Hoi.
      { specialize (IH' i). by rewrite Hi in IH'. }
      cbn [mbind option_bind] in Hm. unfold Lodash.mergeKey in Hm.
      rewrite (skipped_lookup obj' obj) in Hm by done. rewrite Hoi in Hm.
      specialize (IH' k).
      destruct (decide (i = k)) as [<-|Hne].
      * rewrite lookup_insert_eq.
        destruct (Lodash.skipped obj i x); [by injection Hm as <-|].
        destruct (Lodash.mergeSlot _ (obj !! i) x) as [nv|]; [|done].
        injection Hm as <-. exists nv. by rewrite lookup_insert_eq.
      * rewrite lookup_insert_ne by done.
        destruct (Lodash.skipped obj i x); [by injection Hm as <-|].
        destruct (Lodash.mergeSlot _ (obj !! i) x) as [nv|]; [|done].
        injection Hm as <-. by rewrite lookup_insert_ne.
    + intros Hm.
      assert (r = Some (partial_alter (λ _, obj !! i) i m)) as ->.
      { apply IH. intros k. specialize (Hm k).
        destruct (decide (i = k)) as [<-|Hne].
        - by rewrite Hi, lookup_partial_alter_eq.
        - by rewrite lookup_insert_ne in Hm by done;
            rewrite lookup_partial_alter_ne by done. }
      cbn [mbind option_bind]. unfold Lodash.mergeKey.
      rewrite (skipped_lookup _ obj), lookup_partial_alter_eq
        by apply lookup_partial_alter_eq.
      specialize (Hm i). rewrite lookup_insert_eq in Hm.
      destruct (Lodash.skipped obj i x).
      * rewrite <-Hm. by rewrite partial_alter_self.
      * destruct Hm as (nv & -> & Hnv). cbn [mbind option_bind]. f_equal.
        apply map_eq. intros k. destruct (decide (i = k)) as [<-|Hne].
        -- by rewrite lookup_insert_eq.
        -- by rewrite lookup_insert_ne, lookup_partial_alter_ne.
Qed.

(** After the loop over the properties of the source, every key of the
    source holds its merged slot and every other key is untouched. *)
Lemma mergeProps_lookup (obj src m : gmap string value) (k : string) :
  mergeProps obj src = Some m →
  match src !! k with
  | None => m !! k = obj !! k
  | Some sv =>
      if Lodash.skipped obj k sv then m !! k = obj !! k
      else ∃ nv, Lodash.mergeSlot Lodash.baseMerge (obj !! k) sv = Some nv
                 ∧ m !! k = Some nv
  end.
Proof. intros Hm. by apply mergeProps_Some. Qed.

(** The same for the loop over the indexes of a source array. *)
Lemma mergeElems_lookup (src obj l : list value) (i : nat) :
  mergeElems src obj = Some l →
  match src !! i with
  | None => l !! i = obj !! i
  | Some sv =>
      ∃ nv, Lodash.mergeSlot Lodash.baseMerge (obj !! i) sv = Some nv
            ∧ l !! i = Some nv
  end.
Proof.
  revert obj l i. induction src as [|sv src IH]; intros obj l i; simpl.
  - by intros [= <-].
  - destruct (Lodash.mergeSlot _ (head obj) sv) as [nv|] eqn:Hslot; [|done].
    simpl. destruct (mergeElems src (tail obj)) as [rest|] eqn:Hrest; [|done].
    simpl. intros [= <-]. destruct i as [|i]; simpl.
    + rewrite <-head_lookup. eauto.
    + specialize (IH _ _ i Hrest). by rewrite lookup_tail in IH.
Qed.

Lemma mergeElems_length (src obj l : list value) :
  mergeElems src obj = Some l →
  length l = (length obj `max` length src)%nat.
Proof.
  revert obj l. induction src as [|sv src IH]; intros obj l; simpl.
  - intros [= <-]. lia.
  - destruct (Lodash.mergeSlot _ (head obj) sv) as [nv|]; [|done].
    simpl. destruct (mergeElems src (tail obj)) as [rest|] eqn:Hrest; [|done].
    simpl. intros [= <-]. simpl. rewrite (IH _ _ Hrest).
    destruct obj; simpl; lia.
Qed.

(** Conversely, a list of the right length that holds the merged slot at
    every index of the source, and the old element elsewhere, is what the
    loop returns. *)
Lemma mergeElems_complete (src obj l : list value) :
  length l = (length obj `max` length src)%nat →
  (∀ i : nat,
     match src !! i with
     | None => l !! i = obj !! i
     | Some sv =>
         ∃ nv, Lodash.mergeSlot Lodash.baseMerge (obj !! i) sv = Some nv
               ∧ l !! i = Some nv
     end) →
  mergeElems src obj = Some l.
Proof.
  revert obj l. induction src as [|sv src IH]; intros obj l Hlen Hl.
  - cbn [mergeElems]. f_equal. symmetry. by apply list_eq.
  - cbn [mergeElems].
    destruct (Hl 0%nat) as (nv & Hslot & Hnv). cbn in Hslot, Hnv.
    rewrite head_lookup, Hslot. cbn [mbind option_bind].
    destruct l as [|nv' l]; [done|]. injection Hnv as ->.
    rewrite (IH (tail obj) l).
    + done.
    + destruct obj; cbn in Hlen |- *; lia.
    + intros i. specialize (Hl (S i)). cbn in Hl. by rewrite lookup_tail.
Qed.

(** ** The copy that a merge into nothing builds *)

Lemma copied_Obj_lookup (m : gmap string value) (k : string) :
  own (copied (Obj m)) k
  = e ← m !! k; if Lodash.skipped ∅ k e then None else Some (copied e).
Proof.
  cbn [copied own].
  apply (map_fold_weak_ind (λ (r : gmap string value) m,
    r !! k = e ← m !! k; if Lodash.skipped ∅ k e then None else Some (copied e))).
  - by rewrite !lookup_empty.
  - intros i x m' r Hi IH. destruct (decide (i = k)) as [<-|Hne].
    + rewrite lookup_insert_eq. cbn [mbind option_bind].
      rewrite Hi in IH. destruct (Lodash.skipped ∅ i x); [done|].
      by rewrite lookup_insert_eq.
    + rewrite (lookup_insert_ne m') by done.
      destruct (Lodash.skipped ∅ i x); [done|].
      by rewrite lookup_insert_ne.
Qed.

Lemma copied_Obj (m : gmap string value) : ∃ m', copied (Obj m) = Obj m'.
Proof. by eexists. Qed.

(** Merging into nothing copies the source. *)
Lemma mergeSlot_fresh (sv : value) :
  Lodash.mergeSlot Lodash.baseMerge None sv = Some (copied sv)
  ∧ match sv with
    | Arr _ => Lodash.baseMerge (Arr []) sv = Some (copied sv)
    | Obj _ => Lodash.baseMerge (Obj ∅) sv = Some (copied sv)
    | _ => True
    end.
Proof.
  induction sv as [| |b|n|s|l IH|m IH] using value_ind'; try done.
  - assert (Lodash.baseMerge (Arr []) (Arr l) = Some (copied (Arr l))) as H;
      [|done].
    rewrite baseMerge_Arr. cbn [copied].
    assert (mergeElems l [] = Some (map copied l)) as ->; [|done].
    induction IH as [|v l [Hv _] _ IHl]; [done|].
    cbn [mergeElems head tail map]. rewrite Hv. cbn [mbind option_bind].
    by rewrite IHl.
  - assert (Lodash.baseMerge (Obj ∅) (Obj m) = Some (copied (Obj m))) as H;
      [|done].
    rewrite baseMerge_Obj. destruct (copied_Obj m) as [m' Hm'].
    rewrite Hm'. cbn [fmap option_fmap option_map].
    assert (mergeProps ∅ m = Some m') as ->; [|done].
    apply mergeProps_Some. intros k.
    pose proof (copied_Obj_lookup m k) as Hk. rewrite Hm' in Hk. cbn [own] in Hk.
    rewrite lookup_empty.
    destruct (m !! k) as [e|] eqn:He; [|done]. cbn [mbind option_bind] in Hk.
    destruct (Lodash.skipped ∅ k e); [done|].
    exists (copied e). split; [|done]. by apply (IH k e He).
Qed.

(** The merged slot follows the rule of [mergedSlot], and only what
    follows that rule is a merged slot. *)
Lemma mergeSlot_mergedSlot (objValue : option value) (sv nv : value) :
  Lodash.mergeSlot Lodash.baseMerge objValue sv = Some nv
  ↔ mergedSlot objValue sv nv.
Proof.
  pose proof (mergeSlot_fresh sv) as [_ Hfresh].
  destruct sv as [| |b|n|s|l|m];
    destruct objValue as [[| |b'|n'|s'|l'|m']|];
    cbn [Lodash.mergeSlot mergedSlot default];
    try (rewrite Hfresh); cbn [copied];
    unfold id; try (split; congruence); try done.
  destruct (Lodash.isLength (m' !! "length")).
  - destruct (Lodash.copyArray m') as [a|]; cbn [mbind option_bind].
    + split; [intros Ha; eauto|]. by intros (a' & [= <-] & ->).
    + split; [done|]. by intros (a' & [=] & _).
  - split; congruence.
Qed.

Lemma baseMerge_Obj_Some (obj src : gmap string value) (res : value) :
  Lodash.baseMerge (Obj obj) (Obj src) = Some res →
  ∃ m, res = Obj m ∧ mergeProps obj src = Some m.
Proof.
  rewrite baseMerge_Obj. destruct (mergeProps obj src) as [m|]; [|done].
  intros [= <-]. eauto.
Qed.

(** A key the source does not have is left alone. *)
Lemma baseMerge_Obj_other (obj src m : gmap string value) (k : string) :
  Lodash.baseMerge (Obj obj) (Obj src) = Some (Obj m) →
  src !! k = None → m !! k = obj !! k.
Proof.
  intros (m' & [= <-] & Hm)%baseMerge_Obj_Some Hk.
  pose proof (mergeProps_lookup _ _ _ k Hm) as Hl. by rewrite Hk in Hl.
Qed.

(** A scalar of the source replaces whatever the destination held. *)
Lemma baseMerge_Obj_scalar (obj src m : gmap string value) (k : string) (v : value) :
  Lodash.baseMerge (Obj obj) (Obj src) = Some (Obj m) →
  src !! k = Some v → isScalar v → m !! k = Some v.
Proof.
  intros (m' & [= <-] & Hm)%baseMerge_Obj_Some Hk Hv.
  pose proof (mergeProps_lookup _ _ _ k Hm) as Hl. rewrite Hk in Hl.
  destruct v; try done; by destruct Hl as (nv & [= <-] & ->).
Qed.

(** The precedence merge is three merge steps, left to right. *)
Lemma appConfig_steps (d c r cli : gmap string value) :
  appConfig (Obj d) (Obj c) (Obj r) (Obj cli) =
    (x ← Lodash.baseMerge (Obj d) (Obj c);
     y ← Lodash.baseMerge x (Obj r);
     Lodash.baseMerge y (cleanDeep defaultOptions (Obj cli))).
Proof.
  unfold appConfig, Lodash.merge. rewrite cleanDeep_Obj.
  cbn [foldl Lodash.toObject truthy mbind option_bind].
  destruct (Lodash.baseMerge (Obj d) (Obj c)) as [x|]; [|done].
  cbn [mbind option_bind].
  by destruct (Lodash.baseMerge x (Obj r)) as [y|].
Qed.

Lemma appConfig_Some (d c r cli : gmap string value) (app : value) :
  appConfig (Obj d) (Obj c) (Obj r) (Obj cli) = Some app
  ↔ ∃ m1 m2 m3,
      Lodash.baseMerge (Obj d) (Obj c) = Some (Obj m1)
      ∧ Lodash.baseMerge (Obj m1) (Obj r) = Some (Obj m2)
      ∧ Lodash.baseMerge (Obj m2) (cleanDeep defaultOptions (Obj cli))
        = Some (Obj m3)
      ∧ app = Obj m3.
Proof.
  rewrite appConfig_steps. split.
  - rewrite cleanDeep_Obj.
    destruct (Lodash.baseMerge (Obj d) (Obj c)) as [x|] eqn:H1; [|done].
    destruct (baseMerge_Obj_Some _ _ _ H1) as (m1 & -> & _).
    cbn [mbind option_bind].
    destruct (Lodash.baseMerge (Obj m1) (Obj r)) as [y|] eqn:H2; [|done].
    destruct (baseMerge_Obj_Some _ _ _ H2) as (m2 & -> & _).
    cbn [mbind option_bind]. intros H3.
    destruct (baseMerge_Obj_Some _ _ _ H3) as (m3 & -> & _).
    eauto 10.
  - intros (m1 & m2 & m3 & -> & H2 & H3 & ->). cbn [mbind option_bind].
    rewrite H2. cbn [mbind option_bind]. done.
Qed.

End merge_facts.

(** ** When a merge step returns *)

Section clash_facts.

Lemma clashes_Obj (obj src : gmap string value) :
  clashes (Obj obj) (Obj src) = clashProps obj src.
Proof. reflexivity. Qed.

Lemma clashes_Arr (obj src : list value) :
  clashes (Arr obj) (Arr src) = clashElems src obj.
Proof. reflexivity. Qed.

(** The loop over the properties stops without a result exactly when the
    merge of one key does. *)
Lemma mergeProps_None (obj src : gmap string value) :
  mergeProps obj src = None
  ↔ ∃ k sv, src !! k = Some sv ∧ Lodash.skipped obj k sv = false
            ∧ Lodash.mergeSlot Lodash.baseMerge (obj !! k) sv = None.
Proof.
  unfold mergeProps.
  enough ((∀ m, map_fold (λ key srcValue acc,
                   obj ← acc; Lodash.mergeKey Lodash.baseMerge obj key srcValue)
                 (Some obj) src = Some m →
                ∀ k, src !! k = None → m !! k = obj !! k)
          ∧ (map_fold (λ key srcValue acc,
                   obj ← acc; Lodash.mergeKey Lodash.baseMerge obj key srcValue)
               (Some obj) src = None
             ↔ ∃ k sv, src !! k = Some sv ∧ Lodash.skipped obj k sv = false
                       ∧ Lodash.mergeSlot Lodash.baseMerge (obj !! k) sv = None))
    as [_ H]; [done|].
  apply (map_fold_weak_ind (λ r src,
    (∀ m, r = Some m → ∀ k, src !! k = None → m !! k = obj !! k)
    ∧ (r = None
       ↔ ∃ k sv, src !! k = Some sv ∧ Lodash.skipped obj k sv = false
                 ∧ Lodash.mergeSlot Lodash.baseMerge (obj !! k) sv = None))).
  - split; [by intros m [= <-]|]. split; [done|].
    intros (k & sv & Hk & _). by rewrite lookup_empty in Hk.
  - intros i x src' r Hi [IHm IHn].
    assert (Hkey : ∀ obj', r = Some obj' →
              Lodash.mergeKey Lodash.baseMerge obj' i x
              = if Lodash.skipped obj i x then Some obj'
                else newValue ← Lodash.mergeSlot Lodash.baseMerge (obj !! i) x;
                     Some (<[i:=newValue]> obj')).
    { intros obj' Hr. unfold Lodash.mergeKey.
      by rewrite (skipped_lookup obj' obj), (IHm obj' Hr i Hi)
        by (by apply IHm). }
    split.
    + intros m Hm k Hk. apply lookup_insert_None in Hk as [Hk Hne].
      destruct r as [obj'|]; [|done]. cbn [mbind option_bind] in Hm.
      rewrite (Hkey obj' eq_refl) in Hm.
      destruct (Lodash.skipped obj i x).
      * injection Hm as <-. by apply IHm.
      * destruct (Lodash.mergeSlot _ _ x) as [nv|]; [|done].
        injection Hm as <-. rewrite lookup_insert_ne by done. by apply IHm.
    + split.
      * intros Hnone. destruct r as [obj'|].
        -- cbn [mbind option_bind] in Hnone. rewrite (Hkey obj' eq_refl) in Hnone.
           exists i, x. rewrite lookup_insert_eq.
           destruct (Lodash.skipped obj i x); [done|].
           by destruct (Lodash.mergeSlot _ _ x).
        -- destruct (proj1 IHn eq_refl) as (k & sv & Hk & Hs & Hslot).
           exists k, sv. rewrite lookup_insert_ne; [done|]. congruence.
      * intros (k & sv & Hk & Hs & Hslot).
        destruct r as [obj'|]; [|done]. cbn [mbind option_bind].
        rewrite (Hkey obj' eq_refl).
        destruct (decide (i = k)) as [<-|Hne].
        -- rewrite lookup_insert_eq in Hk. injection Hk as ->.
           by rewrite Hs, Hslot.
        -- rewrite lookup_insert_ne in Hk by done.
           by assert (Some obj' = None) by (apply IHn; eauto).
Qed.

Lemma clashProps_true (obj src : gmap string value) :
  clashProps obj src = true
  ↔ ∃ k sv, src !! k = Some sv ∧ Lodash.skipped obj k sv = false
            ∧ clashSlot clashes (obj !! k) sv = true.
Proof.
  unfold clashProps.
  apply (map_fold_weak_ind (λ (r : bool) src,
    r = true
    ↔ ∃ k sv, src !! k = Some sv ∧ Lodash.skipped obj k sv = false
              ∧ clashSlot clashes (obj !! k) sv = true)).
  - split; [done|]. intros (k & sv & Hk & _). by rewrite lookup_empty in Hk.
  - intros i x src' r Hi IH.
    rewrite orb_true_iff, andb_true_iff, negb_true_iff, IH. split.
    + intros [(k & sv & Hk & Hs)|[Hs Hc]].
      * exists k, sv. rewrite lookup_insert_ne; [done|]. congruence.
      * exists i, x. by rewrite lookup_insert_eq.
    + intros (k & sv & Hk & Hs). destruct (decide (i = k)) as [<-|Hne].
      * rewrite lookup_insert_eq in Hk. injection Hk as ->. by right.
      * rewrite lookup_insert_ne in Hk by done. left. eauto.
Qed.

(** One slot, given the statement for the source value. *)
Lemma mergeSlot_None (objValue : option value) (sv : value) :
  (∀ obj, Lodash.baseMerge obj sv = None ↔ clashes obj sv = true) →
  Lodash.mergeSlot Lodash.baseMerge objValue sv = None
  ↔ clashSlot clashes objValue sv = true.
Proof.
  intros IH. pose proof (mergeSlot_fresh sv) as [_ Hfresh].
  destruct sv as [| |b|n|s|l|m];
    destruct objValue as [[| |b'|n'|s'|l'|m']|];
    cbn [Lodash.mergeSlot clashSlot];
    try (rewrite Hfresh); try done.
  destruct (Lodash.isLength (m' !! "length")).
  - destruct (Lodash.copyArray m') as [a|]; cbn [mbind option_bind]; done.
  - done.
Qed.

(** A merge step leaves the model exactly where [clashes] says. *)
Lemma baseMerge_None (obj src : value) :
  Lodash.baseMerge obj src = None ↔ clashes obj src = true.
Proof.
  revert obj. induction src as [| |b|n|s|l IH|m IH] using value_ind';
    intros obj; try done.
  - destruct obj as [| |?|?|?|a|o]; try done.
    rewrite baseMerge_Arr, clashes_Arr, fmap_None.
    revert a. induction IH as [|v l Hv _ IHl]; intros a; [done|].
    cbn [mergeElems clashElems]. rewrite orb_true_iff.
    rewrite <-(mergeSlot_None _ _ Hv), <-IHl.
    destruct (Lodash.mergeSlot _ (head a) v); cbn [mbind option_bind].
    + destruct (mergeElems l (tail a)); cbn [mbind option_bind];
        intuition congruence.
    + intuition congruence.
  - destruct obj as [| |?|?|?|a|o]; try done.
    rewrite baseMerge_Obj, clashes_Obj, fmap_None.
    rewrite mergeProps_None, clashProps_true.
    split; intros (k & sv & Hk & Hs & Hslot); exists k, sv;
      (split; [done|split; [done|]]);
      by apply (mergeSlot_None _ _ (IH k sv Hk)).
Qed.

Lemma unskipped_Obj (m : gmap string value) :
  unskipped (Obj m) = true
  ↔ map_Forall (λ k e, Lodash.skipped ∅ k e = false ∧ unskipped e = true) m.
Proof.
  cbn [unskipped].
  apply (map_fold_weak_ind (λ (r : bool) m,
    r = true
    ↔ map_Forall (λ k e, Lodash.skipped ∅ k e = false ∧ unskipped e = true) m)).
  - split; [intros _; apply map_Forall_empty|done].
  - intros k v m' r Hk IH.
    rewrite !andb_true_iff, negb_true_iff, IH, map_Forall_insert by done.
    tauto.
Qed.

(** A value in which the merge passes over nothing is copied as it is. *)
Lemma copied_unskipped (v : value) : unskipped v = true → copied v = v.
Proof.
  induction v as [| |b|n|s|l IH|m IH] using value_ind'; try done.
  - cbn [unskipped copied]. intros Hl. f_equal.
    induction IH as [|v l Hv _ IHl]; [done|].
    cbn [forallb] in Hl. apply andb_true_iff in Hl as [Hv' Hl].
    cbn [map]. f_equal; auto.
  - intros Hm%unskipped_Obj. destruct (copied_Obj m) as [m' Hm'].
    rewrite Hm'. f_equal. apply map_eq. intros k.
    pose proof (copied_Obj_lookup m k) as Hk. rewrite Hm' in Hk.
    cbn [own] in Hk. rewrite Hk.
    destruct (m !! k) as [e|] eqn:He; [|done]. cbn [mbind option_bind].
    destruct (Hm k e He) as [-> He']. f_equal. by apply (IH k e He).
Qed.

End clash_facts.

(** ** C1 *)




(** ** C5 *)



(** ** C6 *)



(* ===================================================================== *)
(** * [extractPeersList] *)
(* ===================================================================== *)

Section split_facts.
Context (sep : ascii).

Lemma split_nonempty (s : string) : split sep s ≠ [].
Proof. destruct s as [|c s]; simpl; [done|]. by repeat case_match. Qed.

(** Joining the segments with the separator gives the string back. *)
Lemma split_concat (s : string) :
  String.concat (String sep "") (split sep s) = s.
Proof.
  induction s as [|c s IH]; [done|]. simpl.
  destruct (Ascii.eqb_spec c sep) as [->|Hne].
  - pose proof (split_nonempty s).
    destruct (split sep s) as [|x r] eqn:E; [done|].
    simpl in *. by rewrite IH.
  - destruct (split sep s) as [|x r] eqn:E; [by destruct (split_nonempty s)|].
    simpl in *. destruct r; simpl in *; by rewrite <-IH.
Qed.

End split_facts.

(** ** C3 *)

(** C3, as the design document states it, fails on the code: on
    ["10.0.0.1:36668,10.0.0.2"] with default port [36666] the first record
    does not hold the number [36668]; and on ["10.0.0.1:"] the second
    segment is there, empty, and the record holds the default port. *)
Lemma extractPeersList_counterexample :
  extractPeersList (Str "10.0.0.1:36668,10.0.0.2") (n 36666)
  ≠ Arr [Obj {[ "ip" := Str "10.0.0.1"; "wsPort" := n 36668 ]};
         Obj {[ "ip" := Str "10.0.0.2"; "wsPort" := n 36666 ]}]
  ∧ split ":" "10.0.0.1:" = ["10.0.0.1"; ""]
  ∧ extractPeersList (Str "10.0.0.1:") (n 36666)
    = Arr [Obj {[ "ip" := Str "10.0.0.1"; "wsPort" := n 36666 ]}].
Proof.
  split; [|split].
  - intros Heq.
    apply (f_equal (λ r, match r with
                         | Arr (peer :: _) => own peer "wsPort"
                         | _ => None
                         end)) in Heq.
    vm_compute in Heq. discriminate Heq.
  - reflexivity.
  - vm_compute. reflexivity.
Qed.

(** C3, amended. Given a string, the parser splits it on [,] and each
    entry on [:]; the first segment is the host, and the second segment,
    kept as the string it is, is the port unless it is absent or empty, in
    which case the caller's default port is used.  On
    ["10.0.0.1:36668,10.0.0.2"] with default port [36666] the result is
    [[{ip:"10.0.0.1",wsPort:"36668"},{ip:"10.0.0.2",wsPort:36666}]].  Any
    input that is not a string yields the empty sequence. *)
Theorem extractPeersList_spec (defaultPort : value) :
  (∀ s : string,
     extractPeersList (Str s) defaultPort
     = Arr (peerRecord defaultPort <$> split "," s))
  ∧ extractPeersList (Str "10.0.0.1:36668,10.0.0.2") (n 36666)
    = Arr [Obj {[ "ip" := Str "10.0.0.1"; "wsPort" := Str "36668" ]};
           Obj {[ "ip" := Str "10.0.0.2"; "wsPort" := n 36666 ]}]
  ∧ (∀ v : value, (∀ s, v ≠ Str s) → extractPeersList v defaultPort = Arr []).
Proof.
  split; [|split].
  - intros s. unfold extractPeersList. f_equal.
    apply list_fmap_ext. intros _ entry _. unfold peerRecord.
    pose proof (split_nonempty ":" entry) as Hne.
    destruct (split ":" entry) as [|host [|[|c port] rest]]; done.
  - vm_compute. reflexivity.
  - intros v Hv. destruct v; try done. by destruct (Hv s).
Qed.

Lemma extractPeersList_spec_witness :
  extractPeersList (n 7) Null = Arr [].
Proof.
  apply (proj2 (proj2 (extractPeersList_spec Null)) (n 7)).
  intros s. discriminate.
Defined.

(** A sequence of two steps returns only if both do. *)
Lemma run_bind_Returned {A B} (m : run A) (f : A → run B)
    (evs : list event) (b : B) :
  m ≫= f = (evs, Returned b) →
  ∃ evs1 a evs2,
    m = (evs1, Returned a) ∧ f a = (evs2, Returned b)
    ∧ evs = (evs1 ++ evs2)%list.
Proof.
  destruct m as [evs1 [a| | |]]; try done.
  unfold mbind, run_bind. destruct (f a) as [evs2 r] eqn:E.
  intros [= <- ->]. eauto 10.
Qed.

(* ===================================================================== *)
(** * [validateForce] *)
(* ===================================================================== *)

Lemma indexOf_ge (a : list value) (x : value) : (-1 ≤ indexOf a x)%Z.
Proof.
  induction a as [|y a IH]; simpl; [lia|].
  destruct (strict_eq y x); [lia|]. destruct (Z.eqb_spec (indexOf a x) (-1)); lia.
Qed.

(** [indexOf] finds the value exactly when the array lists it. *)
Lemma indexOf_listed (a : list value) (x : value) :
  negb (indexOf a x =? -1)%Z = listed a x.
Proof.
  unfold listed. induction a as [|y a IH]; [done|].
  cbn [indexOf existsb]. destruct (strict_eq y x); [done|].
  cbn [orb]. rewrite <-IH. pose proof (indexOf_ge a x).
  destruct (Z.eqb_spec (indexOf a x) (-1)) as [E|E]; [done|].
  cbn [negb]. destruct (Z.eqb_spec (indexOf a x + 1) (-1)); [lia|done].
Qed.

(** ** C4 *)

(** Whatever the config, a call that returns gives the config back as it
    was, or with a truthy [forging.force] replaced by [false]. *)
Lemma validateForce_Returned (configData configData' : value) (evs : list event) :
  validateForce configData = (evs, Returned configData') →
  configData' = configData
  ∨ ∃ c f force,
      configData = Obj c ∧ c !! "forging" = Some (Obj f)
      ∧ f !! "force" = Some force ∧ truthy force = true
      ∧ configData' = forceDisabled c f.
Proof.
  unfold validateForce. intros Hrun.
  apply run_bind_Returned in Hrun as (? & forging & ? & Hforging & Hrun & ->).
  apply run_bind_Returned in Hrun as (? & force & ? & Hforce & Hrun & ->).
  destruct (truthy force) eqn:Htruthy; [|injection Hrun as _ <-; by left].
  apply run_bind_Returned in Hrun as (? & constants & ? & _ & Hrun & ->).
  apply run_bind_Returned in Hrun as (? & nethashes & ? & _ & Hrun & ->).
  destruct nethashes as [| |?|?|?|hashes|?]; try done.
  apply run_bind_Returned in Hrun as (? & nethash & ? & _ & Hrun & ->).
  destruct (negb (indexOf hashes nethash =? -1)%Z);
    [|injection Hrun as _ <-; by left].
  apply run_bind_Returned in Hrun as (? & [] & ? & _ & Hrun & ->).
  right. unfold disableForce in Hrun.
  destruct configData as [| |?|?|?|?|c]; try done.
  destruct (c !! "forging") as [[| |?|?|?|?|f]|] eqn:Hf; try done.
  injection Hrun as _ <-. exists c, f, force. repeat split; try done.
  unfold read, get in Hforging. rewrite Hf in Hforging.
  injection Hforging as _ <-.
  unfold read, get in Hforce.
  destruct (f !! "force") as [force'|]; injection Hforce as _ <-; [done|].
  done.
Qed.

(** ** C4 *)

(** C4. On a config whose [forging.force] and [constants.nethashes] are
    in place, the Safety Override sets [forging.force] to [false], with a
    notice naming the nethash, exactly when [forging.force] is true and
    the nethash is listed in [constants.nethashes]; otherwise the config
    is returned as it was.  A [forging.force] that is [false] stays
    [false] whatever the rest of the config holds, and no call ever
    changes anything but a true [forging.force] into [false]. *)
Theorem validateForce_only_lowers :
  (∀ (c f k : gmap string value) (force : value) (hashes : list value),
     c !! "forging" = Some (Obj f) →
     f !! "force" = Some force →
     c !! "constants" = Some (Obj k) →
     k !! "nethashes" = Some (Arr hashes) →
     let nethash := default Undefined (c !! "nethash") in
     validateForce (Obj c) =
       (if truthy force && listed hashes nethash
        then ([console_log [Str "Forced forging disabled for nethash"; nethash]],
              Returned (forceDisabled c f))
        else ([], Returned (Obj c))))
  ∧ (∀ c f : gmap string value,
       c !! "forging" = Some (Obj f) →
       f !! "force" = Some (Bool false) →
       validateForce (Obj c) = ([], Returned (Obj c)))
  ∧ (∀ (configData configData' : value) (evs : list event),
       validateForce configData = (evs, Returned configData') →
       configData' = configData
       ∨ ∃ c f force,
           configData = Obj c ∧ c !! "forging" = Some (Obj f)
           ∧ f !! "force" = Some force ∧ truthy force = true
           ∧ configData' = forceDisabled c f).
Proof.
  split; [|split].
  - intros c f k force hashes Hf Hforce Hk Hh nethash.
    unfold validateForce, read, get. rewrite Hf. cbn. rewrite Hforce. cbn.
    destruct (truthy force); [|done]. cbn. rewrite Hk. cbn. rewrite Hh. cbn.
    fold nethash. rewrite indexOf_listed.
    destruct (listed hashes nethash); [|done]. cbn.
    unfold forceDisabled. by rewrite Hf.
  - intros c f Hf Hforce.
    unfold validateForce, read, get. rewrite Hf. cbn. by rewrite Hforce.
  - apply validateForce_Returned.
Qed.

Lemma validateForce_only_lowers_witness :
  validateForce
    (Obj {[ "forging" := Obj {[ "force" := Bool true ]};
            "constants" := Obj {[ "nethashes" := Arr [Str "H1"; Str "H2"] ]};
            "nethash" := Str "H1" ]})
  = ([console_log [Str "Forced forging disabled for nethash"; Str "H1"]],
     Returned
       (Obj {[ "forging" := Obj {[ "force" := Bool false ]};
               "constants" := Obj {[ "nethashes" := Arr [Str "H1"; Str "H2"] ]};
               "nethash" := Str "H1" ]})).
Proof.
  refine (eq_trans
    (proj1 validateForce_only_lowers
      {[ "forging" := Obj {[ "force" := Bool true ]};
         "constants" := Obj {[ "nethashes" := Arr [Str "H1"; Str "H2"] ]};
         "nethash" := Str "H1" ]}
      {[ "force" := Bool true ]}
      {[ "nethashes" := Arr [Str "H1"; Str "H2"] ]}
      (Bool true) [Str "H1"; Str "H2"] _ _ _ _) _);
    vm_compute; reflexivity.
Defined.

(* ===================================================================== *)
(** * [Config] *)
(* ===================================================================== *)

Lemma modelled_Returned {A} (r : option A) (evs : list event) (a : A) :
  modelled r = (evs, Returned a) → r = Some a ∧ evs = [].
Proof. destruct r; [|done]. by intros [= <- <-]. Qed.

Lemma assign_Returned (object : value) (key : string) (v res : value)
    (evs : list event) :
  assign object key v = (evs, Returned res) →
  ∃ m, object = Obj m ∧ res = Obj (<[key:=v]> m) ∧ evs = [].
Proof. destruct object; try done. intros [= <- <-]. eauto. Qed.

(** The sample node starts: port [36668] comes from the command line, the
    rest from the files, and forced forging is switched off because the
    nethash of the genesis block is listed. *)
Example Config_sample :
  Config (sampleHost true) samplePackage true =
    ([console_log [Str "Forced forging disabled for nethash"; Str "H1"]],
     Returned (Obj {[
       "port" := n 36668;
       "address" := Str "0.0.0.0";
       "forging" := Obj {[ "force" := Bool false ]};
       "network" := Str "testnet";
       "root" := Str "/opt/adamant";
       "nonce" := Str "0123456789abcdef";
       "version" := Str "0.8.0";
       "minVersion" := Str "0.6.0";
       "nethash" := Str "H1";
       "coverage" := Bool false;
       "genesisBlock" := Obj {[ "payloadHash" := Str "H1" ]};
       "constants" := Obj {[ "nethashes" := Arr [Str "H1"] ]};
       "exceptions" := Obj ∅ ]})).
Proof. vm_compute. reflexivity. Qed.

(** ** C9 *)

(** C9. When the validator rejects the merged config, [Config] reports
    the validator's errors on the error stream and the process exits with
    status 1; no config is returned.  Conversely, whenever [Config]
    returns a config, the validator accepted the merged config, and the
    returned config is the merged one with the genesis block, the merged
    constants and the merged exceptions attached, after the Safety
    Override. *)
Theorem invalid_config_never_returned
    (H : Host) (packageJson : value) (parseCommandLineOptions : bool) :
  (∀ program l evs1 evs2,
     parseCommandLine H packageJson parseCommandLineOptions
       = (evs1, Returned program) →
     loadSources H packageJson program = (evs2, Returned l) →
     validate H (merged l) = false →
     Config H packageJson parseCommandLineOptions
     = ((evs1 ++ evs2 ++
         [console_error [Str "Failed to validate config data";
                         getLastErrors H (merged l)]])%list,
        Exited 1))
  ∧ (∀ evs configData,
       Config H packageJson parseCommandLineOptions = (evs, Returned configData) →
       ∃ program l evs1 evs2 evs3 m constants exceptions,
         parseCommandLine H packageJson parseCommandLineOptions
           = (evs1, Returned program)
         ∧ loadSources H packageJson program = (evs2, Returned l)
         ∧ validate H (merged l) = true
         ∧ merged l = Obj m
         ∧ Lodash.merge (defaultConstants l) [customConstants l] = Some constants
         ∧ Lodash.merge (defaultExceptions l) [customExceptions l] = Some exceptions
         ∧ validateForce
             (Obj (<["exceptions" := exceptions]>
                     (<["constants" := constants]>
                        (<["genesisBlock" := genesisBlock l]> m))))
           = (evs3, Returned configData)
         ∧ evs = (evs1 ++ evs2 ++ evs3)%list).
Proof.
  split.
  - intros program l evs1 evs2 Hparse Hload Hvalid.
    unfold Config. rewrite Hparse. cbn [mbind run_bind]. rewrite Hload.
    cbn [mbind run_bind]. unfold validateAndFinish. cbv zeta.
    rewrite Hvalid. cbn. done.
  - intros evs configData Hrun. unfold Config in Hrun.
    apply run_bind_Returned in Hrun as (evs1 & program & evs' & Hparse & Hrun & ->).
    apply run_bind_Returned in Hrun as (evs2 & l & evs3 & Hload & Hrun & ->).
    unfold validateAndFinish in Hrun. cbv zeta in Hrun.
    destruct (validate H (merged l)) eqn:Hvalid; [|done]. cbn [negb] in Hrun.
    apply run_bind_Returned in Hrun as (? & a1 & ? & Ha1 & Hrun & ->).
    apply assign_Returned in Ha1 as (m & Hm & -> & ->).
    apply run_bind_Returned in Hrun as (? & constants & ? & Hc & Hrun & ->).
    apply modelled_Returned in Hc as [Hc ->].
    apply run_bind_Returned in Hrun as (? & a2 & ? & Ha2 & Hrun & ->).
    apply assign_Returned in Ha2 as (? & [= <-] & -> & ->).
    apply run_bind_Returned in Hrun as (? & exceptions & ? & He & Hrun & ->).
    apply modelled_Returned in He as [He ->].
    apply run_bind_Returned in Hrun as (? & a3 & evs4 & Ha3 & Hrun & ->).
    apply assign_Returned in Ha3 as (? & [= <-] & -> & ->).
    exists program, l, evs1, evs2, evs4, m, constants, exceptions.
    by repeat split.
Qed.

Lemma invalid_config_never_returned_witness :
  Config (sampleHost false) samplePackage true
  = ([console_error [Str "Failed to validate config data";
                     Arr [Str "schema violation"]]],
     Exited 1).
Proof.
  destruct (loadSources (sampleHost false) samplePackage
              (sampleParse ["node"; "app.js"; "-p"; "36668"] ∅))
    as [evs2 [l| | |]] eqn:Hload; try (vm_compute in Hload; discriminate Hload).
  refine (eq_trans
    (proj1 (invalid_config_never_returned (sampleHost false) samplePackage true)
       (sampleParse ["node"; "app.js"; "-p"; "36668"] ∅) l [] evs2 _ Hload _) _).
  - vm_compute. reflexivity.
  - reflexivity.
  - vm_compute in Hload. injection Hload as <- <-. reflexivity.
Defined.

(** ** C10 *)



(* ===================================================================== *)
(** * [cleanDeep] over the store *)
(* ===================================================================== *)

Section store_facts.
Implicit Types (h : gmap positive Heap.object) (x : Heap.hvalue) (v : value).

Lemma rel_opt_impl {A B} (f g : A → option B) (a : option A) (b : option B) :
  (∀ (c : A) (d : B), f c = Some d → g c = Some d) →
  rel_opt f a b → rel_opt g a b.
Proof. destruct a, b; simpl; auto. Qed.

(** [map_mapM] succeeds exactly when [f] succeeds on every value. *)
Lemma map_mapM_Some_1 {A B} (f : A → option B) (m : gmap string A)
    (m' : gmap string B) :
  Heap.map_mapM f m = Some m' → ∀ k, rel_opt f (m !! k) (m' !! k).
Proof.
  unfold Heap.map_mapM. revert m'.
  apply (map_fold_weak_ind (λ r m, ∀ m', r = Some m' →
           ∀ k, rel_opt f (m !! k) (m' !! k))).
  - intros m' [= <-] k. by rewrite !lookup_empty.
  - intros i a m0 r Hi IH m' Hm' k.
    destruct (f a) as [y|] eqn:Hy; [|done]. simpl in Hm'.
    destruct r as [m1|]; [|done]. simpl in Hm'. injection Hm' as <-.
    destruct (decide (i = k)) as [->|Hne].
    + by rewrite !lookup_insert_eq.
    + rewrite !lookup_insert_ne by done. by apply IH.
Qed.

Lemma map_mapM_Some_2 {A B} (f : A → option B) (m : gmap string A)
    (m' : gmap string B) :
  (∀ k, rel_opt f (m !! k) (m' !! k)) → Heap.map_mapM f m = Some m'.
Proof.
  unfold Heap.map_mapM. revert m'.
  apply (map_fold_weak_ind (λ r m, ∀ m',
           (∀ k, rel_opt f (m !! k) (m' !! k)) → r = Some m')).
  - intros m' Hm'. f_equal. symmetry. apply map_empty. intros k.
    specialize (Hm' k). rewrite lookup_empty in Hm'.
    by destruct (m' !! k).
  - intros i a m0 r Hi IH m' Hm'.
    pose proof (Hm' i) as Hmi. rewrite lookup_insert_eq in Hmi.
    destruct (m' !! i) as [y|] eqn:Hy; [|done]. simpl in Hmi.
    rewrite (IH (delete i m')).
    + rewrite Hmi. simpl. by rewrite insert_delete_id.
    + intros k. destruct (decide (i = k)) as [->|Hne].
      * by rewrite Hi, lookup_delete_eq.
      * rewrite lookup_delete_ne by done. specialize (Hm' k).
        by rewrite lookup_insert_ne in Hm'.
Qed.

(** A primitive denotes itself in every store. *)
Lemma reify_prim (n n' : nat) h h' x v :
  (∀ l, x ≠ Heap.Ref l) →
  Heap.reify n h x = Some v → Heap.reify n' h' x = Some v.
Proof. intros Hx. destruct x; try by destruct n, n'. by destruct (Hx l). Qed.

(** What a value denotes does not change when the store grows. *)
Lemma reify_mono (n : nat) h h' x v :
  h ⊆ h' → Heap.reify n h x = Some v → Heap.reify n h' x = Some v.
Proof.
  intros Hsub. revert x v.
  induction n as [|n IH]; intros x v; destruct x as [| | | | |l]; try done.
  simpl. destruct (h !! l) as [ob|] eqn:Hl; [|done].
  rewrite (lookup_weaken _ _ _ _ Hl Hsub).
  destruct ob as [elems|props].
  - destruct (mapM (Heap.reify n h) elems) as [vs|] eqn:Hvs; [|done].
    intros [= <-]. apply mapM_Some in Hvs.
    assert (mapM (Heap.reify n h') elems = Some vs) as ->; [|done].
    apply mapM_Some. eapply Forall2_impl; [done|]. auto.
  - destruct (Heap.map_mapM (Heap.reify n h) props) as [m|] eqn:Hm; [|done].
    intros [= <-].
    assert (Heap.map_mapM (Heap.reify n h') props = Some m) as ->; [|done].
    apply map_mapM_Some_2. intros k.
    eapply rel_opt_impl; [|by apply map_mapM_Some_1]. auto.
Qed.

End store_facts.

Section store_callback.
Context (o : PruneOptions).
Implicit Types (h : gmap positive Heap.object) (x : Heap.hvalue) (v : value).

(** The tests of the callback agree in the two embeddings. *)
Lemma excluded_reify (n : nat) h x v :
  Heap.reify n h x = Some v → Heap.excluded o h x = excluded o v.
Proof.
  rewrite excluded_cases. unfold Heap.excluded.
  destruct x as [| |b|[z|]|s|l].
  1-6: destruct n; intros [= <-]; try destruct s;
    destruct o as [[] [] [] [] []]; reflexivity.
  destruct n as [|n]; [done|]. simpl.
  unfold Heap.isPlainObject, Heap.isArray, Heap.isEmpty, Heap.noLength.
  destruct (h !! l) as [[elems|props]|]; [| |done].
  - destruct (mapM (Heap.reify n h) elems) as [vs|] eqn:Hvs; [|done].
    intros [= <-]. apply mapM_Some, Forall2_length in Hvs.
    destruct elems, vs; try done;
      destruct o as [[] [] [] [] []]; reflexivity.
  - destruct (Heap.map_mapM (Heap.reify n h) props) as [m|] eqn:Hm; [|done].
    intros [= <-].
    assert (bool_decide (dom props = ∅) = bool_decide (dom m = ∅)) as Hdom.
    { apply bool_decide_ext. rewrite !dom_empty_iff_L, !map_empty.
      split; intros Hk k; specialize (Hk k);
        pose proof (map_mapM_Some_1 _ _ _ Hm k) as Hr;
        destruct (props !! k), (m !! k); done. }
    rewrite <-Hdom. destruct o as [[] [] [] [] []]; cbn;
      rewrite ?orb_false_r; reflexivity.
Qed.

(** So does the test for the recursive call. *)
Lemma container_reify (n : nat) h x v :
  Heap.reify n h x = Some v →
  Heap.isArray h x || Heap.isPlainObject h x
  = match v with Arr _ | Obj _ => true | _ => false end.
Proof.
  destruct x as [| |b|n0|s|l]; try by (destruct n; intros [= <-]).
  destruct n as [|n]; [done|]. simpl.
  destruct (h !! l) as [[elems|props]|]; [| |done].
  - by destruct (mapM _ elems); intros [= <-].
  - by destruct (Heap.map_mapM _ props); intros [= <-].
Qed.

(** Reading through a reference. *)
Lemma reify_Ref_eq (n : nat) h (l : positive) :
  Heap.reify (S n) h (Heap.Ref l) =
    match h !! l with
    | Some (Heap.HArr elems) => Arr <$> mapM (Heap.reify n h) elems
    | Some (Heap.HObj props) => Obj <$> Heap.map_mapM (Heap.reify n h) props
    | None => None
    end.
Proof. reflexivity. Qed.

(** A reference denotes an array or an object. *)
Lemma reify_Ref (n : nat) h (l : positive) v :
  Heap.reify n h (Heap.Ref l) = Some v →
  match v with Arr _ | Obj _ => True | _ => False end.
Proof.
  destruct n as [|n]; [done|]. simpl.
  destruct (h !! l) as [[elems|props]|]; [| |done].
  - by destruct (mapM _ elems); intros [= <-].
  - by destruct (Heap.map_mapM _ props); intros [= <-].
Qed.

(** One call of the callback: the recursive call, if there is one,
    extends the store; then the accumulator at [acc] either stays as it
    is or receives a value that denotes, in the part of the store that is
    new, what the first embedding appends. *)
Lemma iteratee_spec rec (n : nat) h (acc : positive) ob x v (key : string) :
  match v with
  | Arr _ | Obj _ =>
      ∃ h1 r, rec h x = Some (r, h1) ∧ h ⊆ h1
              ∧ Heap.reify (S n) (h1 ∖ h) r = Some (cleanDeep o v)
  | _ => True
  end →
  Heap.reify n h x = Some v →
  h !! acc = Some ob →
  ∃ h1 h',
    Heap.iteratee o rec acc h x key = Some h' ∧ h ⊆ h1
    ∧ match visit o (cleanDeep o) v with
      | None => h' = h1
      | Some v' =>
          ∃ x', Heap.reify (S n) (h1 ∖ h) x' = Some v'
                ∧ h' = <[acc := Heap.push ob x' key]> h1
      end.
Proof.
  intros Hrec Hx Hacc. unfold Heap.iteratee.
  rewrite (container_reify _ _ _ _ Hx).
  assert (∃ h1 x', (match v with
                    | Arr _ | Obj _ => rec h x
                    | _ => Some (x, h)
                    end) = Some (x', h1)
                   ∧ h ⊆ h1
                   ∧ Heap.reify (S n) (h1 ∖ h) x'
                     = Some (pruneChild (cleanDeep o) v))
    as (h1 & x' & Hcall & Hsub & Hx').
  { destruct v; try (exists h, x; split; [done|split; [done|]];
      eapply reify_prim; [|done]; intros l ->;
      by apply reify_Ref in Hx).
    - destruct Hrec as (h1 & r & ? & ? & ?). by exists h1, r.
    - destruct Hrec as (h1 & r & ? & ? & ?). by exists h1, r. }
  exists h1.
  assert ((if match v with Arr _ | Obj _ => true | _ => false end
           then rec h x else Some (x, h)) = Some (x', h1)) as ->.
  { by destruct v. }
  cbn [mbind option_bind].
  assert (Heap.excluded o h1 x' = excluded o (pruneChild (cleanDeep o) v)) as ->.
  { eapply excluded_reify. eapply reify_mono; [|done].
    by apply map_subseteq_difference_l. }
  unfold visit. destruct (excluded o _).
  - by exists h1.
  - rewrite (lookup_weaken _ _ _ _ Hacc Hsub). cbn.
    eexists. split; [reflexivity|]. split; [done|]. by exists x'.
Qed.

End store_callback.

Section store_loops.
Context (o : PruneOptions) (n : nat).
Context (rec : gmap positive Heap.object → Heap.hvalue →
               option (Heap.hvalue * gmap positive Heap.object)).
Context (Hrec : returnsFresh o n rec).
Context (h0 : gmap positive Heap.object) (acc : positive) (ob0 : Heap.object).
Context (Hfresh : h0 !! acc = None).
Implicit Types (h : gmap positive Heap.object) (x : Heap.hvalue) (v : value).

Abbreviation hs := (<[acc := ob0]> h0).

Lemma frame_start : frame acc hs hs.
Proof. by intros l x _ Hl. Qed.

(** The store the loop started from is kept whole: the accumulator is
    not part of it. *)
Lemma frame_base h : frame acc hs h → h0 ⊆ h.
Proof.
  intros Hframe. apply map_subseteq_spec. intros l x Hl.
  assert (l ≠ acc) by congruence.
  apply Hframe; [done|]. by rewrite lookup_insert_ne.
Qed.

Lemma reify_list_mono (m : nat) h h' (r : list Heap.hvalue) (rv : list value) :
  h ⊆ h' →
  mapM (Heap.reify m h) r = Some rv → mapM (Heap.reify m h') r = Some rv.
Proof.
  intros Hsub Hr%mapM_Some. apply mapM_Some.
  eapply Forall2_impl; [done|]. intros x v. by apply reify_mono.
Qed.

(** One turn of a loop, seen from the store the loop started from. *)
Lemma loop_step h ob x v (key : string) :
  frame acc hs h →
  h !! acc = Some ob →
  Heap.reify n h0 x = Some v →
  ∃ h',
    Heap.iteratee o rec acc h x key = Some h'
    ∧ frame acc hs h'
    ∧ h ∖ hs ⊆ h' ∖ hs
    ∧ match visit o (cleanDeep o) v with
      | None => h' !! acc = Some ob
      | Some v' =>
          ∃ x', Heap.reify (S n) (h' ∖ hs) x' = Some v'
                ∧ h' !! acc = Some (Heap.push ob x' key)
      end.
Proof.
  intros Hframe Hacc Hx.
  pose proof (frame_base _ Hframe) as Hbase.
  pose proof (reify_mono _ _ _ _ _ Hbase Hx) as Hxh.
  destruct (iteratee_spec o rec n h acc ob x v key) as (h1 & h' & Hrun & Hsub & Hres);
    [|done|done|].
  { destruct (Hrec h x v Hxh) as (h1 & r & ? & ? & ?).
    destruct v; try done; by exists h1, r. }
  assert (Hold : ∀ ob', h ∖ hs ⊆ <[acc := ob']> h1 ∖ hs).
  { intros ob'. apply map_subseteq_spec. intros l y.
    rewrite !lookup_difference_Some. intros [Hl Hn]. split; [|done].
    assert (l ≠ acc) by (intros ->; by rewrite lookup_insert_eq in Hn).
    rewrite lookup_insert_ne by done. by eapply lookup_weaken. }
  assert (Hnew : ∀ ob', h1 ∖ h ⊆ <[acc := ob']> h1 ∖ hs).
  { intros ob'. apply map_subseteq_spec. intros l y.
    rewrite !lookup_difference_Some. intros [Hl Hn].
    assert (l ≠ acc) by congruence.
    rewrite !lookup_insert_ne by done. split; [done|].
    destruct (h0 !! l) as [z|] eqn:Hz; [|done].
    by rewrite (lookup_weaken _ _ _ _ Hz Hbase) in Hn. }
  assert (Hframe1 : frame acc hs h1).
  { intros l y Hne Hl. eapply lookup_weaken; [|done]. by apply Hframe. }
  exists h'. split; [done|].
  destruct (visit o (cleanDeep o) v) as [v'|].
  - destruct Hres as (x' & Hx' & ->). split; [|split].
    + intros l y Hne Hl. rewrite lookup_insert_ne by done. by apply Hframe1.
    + apply Hold.
    + exists x'. split; [|by rewrite lookup_insert_eq].
      eapply reify_mono; [apply Hnew|done].
  - subst h'. split; [done|split].
    + rewrite <-(insert_id h1 acc ob) by (by eapply lookup_weaken).
      apply Hold.
    + by eapply lookup_weaken.
Qed.

(** The loop over the indexes of an array. *)
Lemma arrayEach_spec (l : positive) (elems : list Heap.hvalue) (vs : list value) :
  h0 !! l = Some (Heap.HArr elems) →
  Forall2 (λ x v, Heap.reify n h0 x = Some v) elems vs →
  ∀ (k i : nat) h (r : list Heap.hvalue) (rv : list value),
    (i + k = length elems)%nat →
    frame acc hs h →
    h !! acc = Some (Heap.HArr r) →
    mapM (Heap.reify (S n) (h ∖ hs)) r = Some rv →
    ∃ h' r',
      Heap.arrayEach l (seq i k) (Heap.iteratee o rec acc) h = Some h'
      ∧ frame acc hs h'
      ∧ h' !! acc = Some (Heap.HArr r')
      ∧ mapM (Heap.reify (S n) (h' ∖ hs)) r'
        = Some (rv ++ omap (visit o (cleanDeep o)) (drop i vs))%list.
Proof.
  intros Hl Hvs. pose proof (Forall2_length _ _ _ Hvs) as Hlen.
  induction k as [|k IH]; intros i h r rv Hik Hframe Hacc Hr.
  - exists h, r. rewrite drop_ge by lia. by rewrite app_nil_r.
  - unfold Heap.arrayEach. cbn [seq foldl mbind option_bind].
    rewrite (lookup_weaken _ _ _ _ Hl (frame_base _ Hframe)).
    destruct (lookup_lt_is_Some_2 elems i) as [x Hx]; [lia|].
    rewrite Hx. cbn [default from_option id].
    destruct (Forall2_lookup_l _ _ _ _ _ Hvs Hx) as (v & Hv & Hxv).
    destruct (loop_step h _ x v (pretty i) Hframe Hacc Hxv)
      as (h' & Hrun & Hframe' & Hold & Hres).
    rewrite Hrun. rewrite (drop_S _ _ _ Hv). cbn [omap list_omap].
    pose proof (reify_list_mono _ _ _ _ _ Hold Hr) as Hr'.
    destruct (visit o (cleanDeep o) v) as [v'|].
    + destruct Hres as (x' & Hx' & Hacc').
      destruct (IH (S i) h' (r ++ [x'])%list (rv ++ [v'])%list) as (h'' & r'' & ? & ? & ? & ?);
        [lia|done|done| |].
      { apply mapM_Some, Forall2_app; [by apply mapM_Some|].
        by repeat constructor. }
      exists h'', r''. rewrite <-app_assoc in *. done.
    + destruct (IH (S i) h' r rv) as (h'' & r'' & ? & ? & ? & ?); try done; [lia|].
      by exists h'', r''.
Qed.

(** The loop over the keys of an object. *)
Lemma baseForOwn_spec (l : positive) (props : gmap string Heap.hvalue)
    (pm : gmap string value) :
  ob0 = Heap.HObj ∅ →
  h0 !! l = Some (Heap.HObj props) →
  (∀ k, rel_opt (Heap.reify n h0) (props !! k) (pm !! k)) →
  ∃ h' rm,
    Heap.baseForOwn l props (Heap.iteratee o rec acc) hs = Some h'
    ∧ frame acc hs h'
    ∧ h' !! acc = Some (Heap.HObj rm)
    ∧ Heap.map_mapM (Heap.reify (S n) (h' ∖ hs)) rm
      = Some (delete "__proto__" (omap (visit o (cleanDeep o)) pm)).
Proof.
  intros Hob Hl Hpm. unfold Heap.baseForOwn.
  pose (target := λ (m : gmap string Heap.hvalue) (k : string),
          if decide (k = "__proto__") then None
          else match m !! k with
               | Some _ => pm !! k ≫= visit o (cleanDeep o)
               | None => None
               end).
  pose (P := λ (st : option (gmap positive Heap.object))
               (m : gmap string Heap.hvalue),
          m ⊆ props →
          ∃ h rm, st = Some h ∧ frame acc hs h
                  ∧ h !! acc = Some (Heap.HObj rm)
                  ∧ ∀ k, rel_opt (Heap.reify (S n) (h ∖ hs)) (rm !! k) (target m k)).
  assert (Hloop :
    P (map_fold (λ (key : string) (_ : Heap.hvalue) st,
                   h ← st;
                   match h !! l with
                   | Some (Heap.HObj props) =>
                       Heap.iteratee o rec acc h
                         (default Heap.HUndefined (props !! key)) key
                   | _ => None
                   end) (Some hs) props)
      props).
  { apply (map_fold_weak_ind P); unfold P.
    - intros _. exists hs, ∅. split; [done|]. split; [apply frame_start|].
      split; [by rewrite lookup_insert_eq, Hob|].
      intros k. unfold target. rewrite !lookup_empty. by case_decide.
    - intros i x m st Hi IH Hsub.
      assert (props !! i = Some x) as Hpi.
      { eapply lookup_weaken; [|done]. by rewrite lookup_insert_eq. }
      destruct IH as (h & rm & -> & Hframe & Hacc & Hrm).
      { etrans; [|done]. by apply insert_subseteq. }
      cbn [mbind option_bind].
      rewrite (lookup_weaken _ _ _ _ Hl (frame_base _ Hframe)).
      rewrite Hpi. cbn [default from_option id].
      pose proof (Hpm i) as Hv. rewrite Hpi in Hv.
      destruct (pm !! i) as [v|] eqn:Hpmi; [|done]. simpl in Hv.
      destruct (loop_step h _ x v i Hframe Hacc Hv)
        as (h' & Hrun & Hframe' & Hold & Hres).
      assert (Hkeep : ∀ k, k ≠ i → ∀ rm' : gmap string Heap.hvalue,
                rm' !! k = rm !! k →
                rel_opt (Heap.reify (S n) (h' ∖ hs)) (rm' !! k)
                        (target (<[i:=x]> m) k)).
      { intros k Hk rm' ->. unfold target. rewrite lookup_insert_ne by done.
        eapply rel_opt_impl; [|apply Hrm]. intros c d. by apply reify_mono. }
      assert (rm !! i = None) as Hrmi'.
      { specialize (Hrm i). unfold target in Hrm. rewrite Hi in Hrm.
        destruct (rm !! i); [|done]. by case_decide. }
      exists h'. destruct (visit o (cleanDeep o) v) as [v'|] eqn:Hvisit.
      + destruct Hres as (x' & Hx' & Hacc'). unfold Heap.push in Hacc'.
        case_bool_decide as Hp.
        * destruct Hp as [-> _]. exists rm. repeat split; try done.
          intros k. destruct (decide (k = "__proto__")) as [->|Hk].
          -- unfold target. by rewrite decide_True, Hrmi'.
          -- by apply Hkeep.
        * assert (i ≠ "__proto__") as Hi' by (intros ->; by apply Hp).
          exists (<[i:=x']> rm). repeat split; try done.
          intros k. destruct (decide (k = i)) as [->|Hk].
          -- unfold target. rewrite decide_False, !lookup_insert_eq, Hpmi by done.
             simpl. by rewrite Hvisit.
          -- apply Hkeep; [done|]. by rewrite lookup_insert_ne.
      + exists rm. repeat split; try done.
        intros k. destruct (decide (k = i)) as [->|Hk].
        * unfold target. rewrite lookup_insert_eq, Hpmi, Hrmi'. simpl.
          rewrite Hvisit. by case_decide.
        * by apply Hkeep. }
  destruct (Hloop (reflexivity _)) as (h' & rm & Hrun & Hframe & Hacc & Hrm).
  exists h', rm. repeat split; try done.
  apply map_mapM_Some_2. intros k.
  specialize (Hrm k). unfold target in Hrm.
  specialize (Hpm k). case_decide as Hk.
  - subst. by rewrite lookup_delete_eq.
  - rewrite lookup_delete_ne, lookup_omap by done.
    destruct (props !! k), (pm !! k); done.
Qed.

End store_loops.

Section store_main.
Context (o : PruneOptions).
Implicit Types (h : gmap positive Heap.object) (x : Heap.hvalue) (v : value).

Lemma fresh_loc h : h !! fresh (dom h) = None.
Proof. apply not_elem_of_dom, is_fresh. Qed.

Lemma difference_antitone h h1 h' : h ⊆ h1 → h' ∖ h1 ⊆ h' ∖ h.
Proof.
  intros Hsub. apply map_subseteq_spec. intros l y.
  rewrite !lookup_difference_Some. intros [Hl Hn]. split; [done|].
  destruct (h !! l) as [z|] eqn:Hz; [|done].
  by rewrite (lookup_weaken _ _ _ _ Hz Hsub) in Hn.
Qed.

(** The loop over the characters of a string changes the accumulator and
    nothing else; it runs in step with the loop of the first embedding. *)
Lemma stringEach_spec rec h (acc : positive) (s : string) :
  ∀ (i : nat) (rm : gmap string Heap.hvalue) (pm : gmap string value),
    (∀ k, rel_opt (Heap.reify 0 ∅) (rm !! k) (pm !! k)) →
    ∃ rm' pm',
      (foldl (λ '(index, st) x,
                (S index, h' ← st; Heap.iteratee o rec acc h' x (pretty index)))
             (i, Some (<[acc := Heap.HObj rm]> h)) (Heap.chars s)).2
        = Some (<[acc := Heap.HObj rm']> h)
      ∧ (foldl (λ '(index, a) v,
                  (S index, iteratee o (λ value, value) a v (pretty index)))
               (i, Obj pm) (Lodash.chars s)).2
        = Obj pm'
      ∧ ∀ k, rel_opt (Heap.reify 0 ∅) (rm' !! k) (pm' !! k).
Proof.
  induction s as [|c s IH]; intros i rm pm Hrel.
  - by exists rm, pm.
  - cbn [Heap.chars Lodash.chars foldl mbind option_bind].
    rewrite iteratee_visit, visit_char. cbv iota.
    assert (Heap.iteratee o rec acc (<[acc := Heap.HObj rm]> h)
              (Heap.HStr (String c "")) (pretty i)
            = Some (<[acc := Heap.push (Heap.HObj rm)
                               (Heap.HStr (String c "")) (pretty i)]> h))
      as ->.
    { unfold Heap.iteratee. cbn [Heap.isArray Heap.isPlainObject orb mbind option_bind].
      assert (Heap.excluded o (<[acc := Heap.HObj rm]> h) (Heap.HStr (String c ""))
              = false) as ->.
      { destruct o as [[] [] [] [] []]; reflexivity. }
      rewrite lookup_insert_eq. cbn [mbind option_bind].
      by rewrite insert_insert_eq. }
    assert (bool_decide (pretty i = "__proto__" ∧ rm !! pretty i = None)
            = bool_decide (pretty i = "__proto__" ∧ pm !! pretty i = None))
      as Hcond.
    { apply bool_decide_ext. specialize (Hrel (pretty i)).
      destruct (rm !! pretty i), (pm !! pretty i); try done;
        intuition congruence. }
    unfold Heap.push, append. rewrite Hcond. clear Hcond.
    case_bool_decide; [by apply IH|].
    apply IH. intros k. destruct (decide (k = pretty i)) as [->|Hk].
    + by rewrite !lookup_insert_eq.
    + by rewrite !lookup_insert_ne.
Qed.

(** On a primitive that is not a string the result is a new empty
    object. *)
Lemma cleanDeep_store_prim (n : nat) h x v :
  (∀ l, x ≠ Heap.Ref l) → (∀ s, x ≠ Heap.HStr s) →
  Heap.reify n h x = Some v →
  ∃ h' r, Heap.cleanDeep (S n) o h x = Some (r, h') ∧ h ⊆ h'
          ∧ Heap.reify (S n) (h' ∖ h) r = Some (cleanDeep o v).
Proof.
  intros Hx Hs Hv.
  exists (<[fresh (dom h) := Heap.HObj ∅]> h), (Heap.Ref (fresh (dom h))).
  pose proof (fresh_loc h) as Hfresh.
  assert (cleanDeep o v = Obj ∅ ∧
          Heap.cleanDeep (S n) o h x
          = Some (Heap.Ref (fresh (dom h)), <[fresh (dom h) := Heap.HObj ∅]> h))
    as [-> ->].
  { destruct x; try (destruct n; injection Hv as <-; done).
    - by destruct (Hs s).
    - by destruct (Hx l). }
  split; [done|]. split; [by apply insert_subseteq|].
  cbn [Heap.reify].
  assert ((<[fresh (dom h) := Heap.HObj ∅]> h ∖ h) !! fresh (dom h)
          = Some (Heap.HObj ∅)) as ->.
  { apply lookup_difference_Some. by rewrite lookup_insert_eq. }
  done.
Qed.

Lemma reify_0 (n : nat) h x v :
  Heap.reify 0 ∅ x = Some v → Heap.reify n h x = Some v.
Proof. intros Hx. eapply reify_prim; [|done]. by intros l ->. Qed.

(** On a string the result is a new object that holds the characters. *)
Lemma cleanDeep_store_Str (n : nat) h (s : string) :
  ∃ h' r, Heap.cleanDeep (S n) o h (Heap.HStr s) = Some (r, h') ∧ h ⊆ h'
          ∧ Heap.reify (S n) (h' ∖ h) r = Some (cleanDeep o (Str s)).
Proof.
  pose proof (fresh_loc h) as Hfresh.
  destruct (stringEach_spec (Heap.cleanDeep n o) h (fresh (dom h)) s 0 ∅ ∅)
    as (rm & pm & Hrun & Hpure & Hrel).
  { intros k. by rewrite !lookup_empty. }
  exists (<[fresh (dom h) := Heap.HObj rm]> h), (Heap.Ref (fresh (dom h))).
  split; [|split].
  - cbn [Heap.cleanDeep Heap.transform Heap.alloc].
    unfold Heap.stringEach. rewrite Hrun. done.
  - by apply insert_subseteq.
  - cbn [Heap.reify].
    assert ((<[fresh (dom h) := Heap.HObj rm]> h ∖ h) !! fresh (dom h)
            = Some (Heap.HObj rm)) as ->.
    { apply lookup_difference_Some. by rewrite lookup_insert_eq. }
    change (cleanDeep o (Str s)) with
      (foldl (λ '(index, a) v,
                (S index, iteratee o (λ value, value) a v (pretty index)))
             (0%nat, Obj ∅) (Lodash.chars s)).2.
    rewrite Hpure.
    assert (Heap.map_mapM
              (Heap.reify n (<[fresh (dom h) := Heap.HObj rm]> h ∖ h)) rm
            = Some pm) as ->; [|done].
    apply map_mapM_Some_2. intros k.
    eapply rel_opt_impl; [|apply Hrel]. intros c d. apply reify_0.
Qed.

(** A call of [Heap.cleanDeep] on a value that denotes a nested value
    returns, keeps the store it started from, and builds the pruned value
    in new locations. *)
Lemma cleanDeep_returnsFresh (n : nat) :
  returnsFresh o n (Heap.cleanDeep (S n) o).
Proof.
  assert (Hprim : ∀ m h x v, (∀ l, x ≠ Heap.Ref l) →
            Heap.reify m h x = Some v →
            ∃ h' r, Heap.cleanDeep (S m) o h x = Some (r, h') ∧ h ⊆ h'
                    ∧ Heap.reify (S m) (h' ∖ h) r = Some (cleanDeep o v)).
  { intros m h x v Hx Hv. destruct x as [| | | |s|l].
    1-4: by apply cleanDeep_store_prim.
    - destruct m; injection Hv as <-; apply cleanDeep_store_Str.
    - by destruct (Hx l). }
  induction n as [|n IH]; intros h x v Hx; destruct x as [| | | |s|l].
  1-5, 7-11: by apply Hprim.
  { done. }
  pose proof (fresh_loc h) as Hfresh.
  rewrite reify_Ref_eq in Hx.
  destruct (h !! l) as [[elems|props]|] eqn:Hl; [| |done].
  - destruct (mapM (Heap.reify n h) elems) as [vs|] eqn:Hvs; [|done].
    injection Hx as <-. apply mapM_Some in Hvs.
    destruct (arrayEach_spec o n _ IH h (fresh (dom h)) (Heap.HArr []) Hfresh
                l elems vs Hl Hvs (length elems) 0
                (<[fresh (dom h) := Heap.HArr []]> h) [] [])
      as (h' & r & Hrun & Hframe & Hacc & Hr);
      [done|apply frame_start|by rewrite lookup_insert_eq|done|].
    exists h', (Heap.Ref (fresh (dom h))). split; [|split].
    + change (Heap.cleanDeep (S (S n)) o h (Heap.Ref l))
        with (Heap.transform h (Heap.Ref l)
                (Heap.iteratee o (Heap.cleanDeep (S n) o))).
      unfold Heap.transform, Heap.alloc. rewrite Hl.
      cbn zeta. rewrite Hrun. done.
    + by eapply frame_base.
    + rewrite reify_Ref_eq.
      assert ((h' ∖ h) !! fresh (dom h) = Some (Heap.HArr r)) as ->.
      { by apply lookup_difference_Some. }
      rewrite cleanDeep_Arr.
      erewrite reify_list_mono; [done| |done].
      apply difference_antitone. by apply insert_subseteq.
  - destruct (Heap.map_mapM (Heap.reify n h) props) as [pm|] eqn:Hpm; [|done].
    injection Hx as <-.
    destruct (baseForOwn_spec o n _ IH h (fresh (dom h)) (Heap.HObj ∅) Hfresh
                l props pm eq_refl Hl (map_mapM_Some_1 _ _ _ Hpm))
      as (h' & rm & Hrun & Hframe & Hacc & Hrm).
    exists h', (Heap.Ref (fresh (dom h))). split; [|split].
    + change (Heap.cleanDeep (S (S n)) o h (Heap.Ref l))
        with (Heap.transform h (Heap.Ref l)
                (Heap.iteratee o (Heap.cleanDeep (S n) o))).
      unfold Heap.transform, Heap.alloc. rewrite Hl.
      cbn zeta. rewrite Hrun. done.
    + by eapply frame_base.
    + rewrite reify_Ref_eq.
      assert ((h' ∖ h) !! fresh (dom h) = Some (Heap.HObj rm)) as ->.
      { by apply lookup_difference_Some. }
      rewrite cleanDeep_Obj.
      assert (Heap.map_mapM (Heap.reify (S n) (h' ∖ h)) rm
              = Some (delete "__proto__" (omap (visit o (cleanDeep o)) pm)))
        as ->; [|done].
      apply map_mapM_Some_2. intros k.
      eapply rel_opt_impl; [|by apply map_mapM_Some_1].
      intros c d. apply reify_mono, difference_antitone.
      by apply insert_subseteq.
Qed.

End store_main.

(** ** Every call that returns leaves the store it started from *)

Section store_frame.
Context (o : PruneOptions).
Context (rec : gmap positive Heap.object → Heap.hvalue →
               option (Heap.hvalue * gmap positive Heap.object)).
Context (Hrec : ∀ h x r h', rec h x = Some (r, h') → h ⊆ h').
Context (acc : positive).
Implicit Types (h : gmap positive Heap.object) (x : Heap.hvalue).

Lemma frame_trans h1 h2 h3 : frame acc h1 h2 → frame acc h2 h3 → frame acc h1 h3.
Proof. intros H12 H23 l y Hne Hl. by apply H23, H12. Qed.

(** The callback writes to the accumulator only. *)
Lemma iteratee_frame h h' x (key : string) :
  Heap.iteratee o rec acc h x key = Some h' → frame acc h h'.
Proof.
  unfold Heap.iteratee. intros Hrun.
  destruct (if Heap.isArray h x || Heap.isPlainObject h x
            then rec h x else Some (x, h)) as [[x' h1]|] eqn:Hcall; [|done].
  assert (h ⊆ h1) as Hsub.
  { destruct (Heap.isArray h x || Heap.isPlainObject h x).
    - by eapply Hrec.
    - by injection Hcall as _ <-. }
  cbn [mbind option_bind] in Hrun.
  destruct (Heap.excluded o h1 x').
  - injection Hrun as <-. intros l y _ Hl. by eapply lookup_weaken.
  - destruct (h1 !! acc) as [ob|]; [|done]. injection Hrun as <-.
    intros l y Hne Hl. rewrite lookup_insert_ne by done.
    by eapply lookup_weaken.
Qed.

Lemma arrayEach_frame (l : positive) (indexes : list nat) h h' :
  Heap.arrayEach l indexes (Heap.iteratee o rec acc) h = Some h' →
  frame acc h h'.
Proof.
  unfold Heap.arrayEach. revert h.
  induction indexes as [|i indexes IH]; intros h; cbn [foldl].
  - intros [= <-]. by intros l' y _ Hl.
  - cbn [mbind option_bind].
    destruct (match h !! l with
              | Some (Heap.HArr elems) =>
                  Heap.iteratee o rec acc h
                    (default Heap.HUndefined (elems !! i)) (pretty i)
              | _ => None
              end) as [h1|] eqn:Hstep.
    + intros Hrest. eapply frame_trans; [|by apply IH].
      destruct (h !! l) as [[elems|props]|]; try done.
      by eapply iteratee_frame.
    + intros Hrest. exfalso. clear -Hrest.
      induction indexes as [|j indexes IHi]; [done|]. by apply IHi.
Qed.

Lemma baseForOwn_frame (l : positive) (keys : gmap string Heap.hvalue) h h' :
  Heap.baseForOwn l keys (Heap.iteratee o rec acc) h = Some h' →
  frame acc h h'.
Proof.
  unfold Heap.baseForOwn. revert h'.
  apply (map_fold_weak_ind
           (λ (st : option (gmap positive Heap.object))
              (_ : gmap string Heap.hvalue),
              ∀ h', st = Some h' → frame acc h h')).
  - intros h' [= <-]. by intros l' y _ Hl.
  - intros i x m st _ IH h' Hstep.
    destruct st as [h1|]; [|done]. cbn [mbind option_bind] in Hstep.
    eapply frame_trans; [by apply IH|].
    destruct (h1 !! l) as [[elems|props]|]; try done.
    by eapply iteratee_frame.
Qed.

Lemma stringEach_frame (chars : list Heap.hvalue) h h' :
  Heap.stringEach chars (Heap.iteratee o rec acc) h = Some h' →
  frame acc h h'.
Proof.
  unfold Heap.stringEach. generalize 0%nat as i. revert h.
  induction chars as [|c chars IH]; intros h i; cbn [foldl].
  - intros [= <-]. by intros l' y _ Hl.
  - cbn [mbind option_bind].
    destruct (Heap.iteratee o rec acc h c (pretty i)) as [h1|] eqn:Hstep.
    + intros Hrest. eapply frame_trans; [by eapply iteratee_frame|].
      by eapply IH.
    + intros Hrest. exfalso. clear -Hrest. revert Hrest. generalize (S i).
      induction chars as [|d chars IHc]; intros j; [done|]. apply IHc.
Qed.

End store_frame.

(** A call that returns has kept every object of the store it started
    from, and returns a reference to a location that store did not have. *)
Lemma cleanDeep_frame (o : PruneOptions) (fuel : nat)
    (h h' : gmap positive Heap.object) (x r : Heap.hvalue) :
  Heap.cleanDeep fuel o h x = Some (r, h') →
  h ⊆ h' ∧ ∃ l, r = Heap.Ref l ∧ h !! l = None.
Proof.
  revert h h' x r. induction fuel as [|fuel IH]; intros h h' x r; [done|].
  assert (Hrec : ∀ h x r h', Heap.cleanDeep fuel o h x = Some (r, h') → h ⊆ h').
  { intros ???? Hrun. by apply IH in Hrun as [? _]. }
  pose proof (fresh_loc h) as Hfresh.
  assert (Hdone : ∀ ob h1,
            frame (fresh (dom h)) (<[fresh (dom h) := ob]> h) h1 →
            h ⊆ h1 ∧ ∃ l, Heap.Ref (fresh (dom h)) = Heap.Ref l ∧ h !! l = None).
  { intros ob h1 Hframe. split; [by eapply frame_base|eauto]. }
  cbn [Heap.cleanDeep]. unfold Heap.transform, Heap.alloc.
  destruct x as [| | | |s|l].
  1-4: intros [= <- <-]; apply (Hdone (Heap.HObj ∅)); by intros l y _ Hl.
  - destruct (Heap.stringEach _ _ _) as [h1|] eqn:Hloop; [|done].
    intros [= <- <-]. eapply Hdone. by eapply stringEach_frame.
  - destruct (h !! l) as [[elems|props]|]; [| |done].
    + destruct (Heap.arrayEach _ _ _ _) as [h1|] eqn:Hloop; [|done].
      intros [= <- <-]. eapply Hdone. by eapply arrayEach_frame.
    + destruct (Heap.baseForOwn _ _ _ _) as [h1|] eqn:Hloop; [|done].
      intros [= <- <-]. eapply Hdone. by eapply baseForOwn_frame.
Qed.

(** ** C8 *)

(** C8. The Pruner never mutates its input.  Whenever a call returns,
    every object the store held before the call is still there with the
    same content, and the call returns a reference to a location the store
    did not have.  Called on a value that denotes a nested structure, it
    does return; the input denotes what it denoted; and the returned
    value denotes the pruned structure wholly in locations that the store
    did not have before the call, that is, in a newly constructed
    structure. *)
Theorem cleanDeep_does_not_mutate (o : PruneOptions) :
  (∀ (fuel : nat) (h h' : gmap positive Heap.object) (x r : Heap.hvalue),
     Heap.cleanDeep fuel o h x = Some (r, h') →
     h ⊆ h' ∧ ∃ l, r = Heap.Ref l ∧ h !! l = None)
  ∧ (∀ (n : nat) (h : gmap positive Heap.object) (x : Heap.hvalue) (v : value),
       Heap.reify n h x = Some v →
       ∃ h' r,
         Heap.cleanDeep (S n) o h x = Some (r, h')
         ∧ h ⊆ h'
         ∧ Heap.reify n h' x = Some v
         ∧ Heap.reify (S n) (h' ∖ h) r = Some (cleanDeep o v)).
Proof.
  split.
  - intros fuel h h' x r. apply cleanDeep_frame.
  - intros n h x v Hx.
    destruct (cleanDeep_returnsFresh o n h x v Hx) as (h' & r & Hrun & Hsub & Hr).
    exists h', r. repeat split; try done. by eapply reify_mono.
Qed.

Lemma cleanDeep_does_not_mutate_witness :
  ∃ h' r,
    Heap.cleanDeep 4 defaultOptions sampleStore (Heap.Ref 1) = Some (r, h')
    ∧ sampleStore ⊆ h'
    ∧ Heap.reify 3 h' (Heap.Ref 1) = Some sampleValue
    ∧ Heap.reify 4 (h' ∖ sampleStore) r
      = Some (cleanDeep defaultOptions sampleValue).
Proof.
  apply (proj2 (cleanDeep_does_not_mutate defaultOptions) 3%nat sampleStore
           (Heap.Ref 1) sampleValue).
  vm_compute. reflexivity.
Defined.

(* ===================================================================== *)
(** * Further properties of [cleanDeep] *)
(* ===================================================================== *)

Section cleanDeep_more.
Context (o : PruneOptions).

Lemma pruned_Arr (l : list value) :
  pruned o (Arr l) = true
  ↔ Forall (λ e, excluded o e = false ∧ pruned o e = true) l.
Proof.
  cbn [pruned]. induction l as [|e l IH]; cbn [forallb].
  - split; [constructor|done].
  - rewrite !andb_true_iff, negb_true_iff, Forall_cons, IH. tauto.
Qed.

Lemma pruned_Obj (m : gmap string value) :
  pruned o (Obj m) = true
  ↔ map_Forall (λ _ e, excluded o e = false ∧ pruned o e = true) m.
Proof.
  cbn [pruned].
  apply (map_fold_weak_ind
           (λ (b : bool) (m : gmap string value),
              b = true
              ↔ map_Forall (λ _ e, excluded o e = false ∧ pruned o e = true) m)).
  - split; [intros _; apply map_Forall_empty|done].
  - intros k e m' b Hk IH.
    rewrite map_Forall_insert by done.
    rewrite !andb_true_iff, negb_true_iff, IH. tauto.
Qed.

(** A value the callback keeps is not excluded, and is pruned inside as
    soon as the recursive call prunes. *)
Lemma visit_pruned (v v' : value) :
  pruned o (cleanDeep o v) = true →
  visit o (cleanDeep o) v = Some v' →
  excluded o v' = false ∧ pruned o v' = true.
Proof.
  unfold visit. intros Hv.
  destruct (excluded o (pruneChild (cleanDeep o) v)) eqn:E; [done|].
  intros [= <-]. split; [done|]. by destruct v.
Qed.

Lemma cleanDeep_pruned (x : value) : pruned o (cleanDeep o x) = true.
Proof.
  induction x as [| |b|n|s|l IH|m IH] using value_ind';
    try (simpl; by rewrite map_fold_empty).
  - destruct (cleanDeep_Str o s) as (m & -> & Hm & _).
    apply pruned_Obj. intros k v Hk. destruct (Hm k v Hk) as [c ->].
    split; [|done]. pose proof (visit_char o (λ v, v) c) as Hc.
    unfold visit in Hc. simpl in Hc. by destruct (excluded o _).
  - rewrite cleanDeep_Arr. apply pruned_Arr.
    induction IH as [|v l Hv _ IHl]; [constructor|].
    cbn [omap list_omap].
    destruct (visit o (cleanDeep o) v) as [v'|] eqn:E; [|done].
    constructor; [|done]. by eapply visit_pruned.
  - rewrite cleanDeep_Obj. apply pruned_Obj. intros k v'.
    intros [_ Hv']%lookup_delete_Some. revert Hv'.
    rewrite lookup_omap. destruct (m !! k) as [v|] eqn:Hk; [|done].
    simpl. intros E. eapply visit_pruned; [|done]. by eapply IH.
Qed.

(** No object that the callback builds has a key named [__proto__]. *)
Lemma cleanDeep_protoFree (x : value) : protoFree (cleanDeep o x) = true.
Proof.
  assert (Hvisit : ∀ v v', protoFree (cleanDeep o v) = true →
            visit o (cleanDeep o) v = Some v' → protoFree v' = true).
  { intros v v' Hv. unfold visit.
    destruct (excluded o (pruneChild (cleanDeep o) v)); [done|].
    intros [= <-]. by destruct v. }
  induction x as [| |b|n|s|l IH|m IH] using value_ind';
    try (simpl; by rewrite map_fold_empty).
  - destruct (cleanDeep_Str o s) as (m & -> & Hm & Hp).
    apply protoFree_Obj. split; [done|].
    intros k v Hk. by destruct (Hm k v Hk) as [c ->].
  - rewrite cleanDeep_Arr. apply protoFree_Arr.
    induction IH as [|v l Hv _ IHl]; [constructor|].
    cbn [omap list_omap].
    destruct (visit o (cleanDeep o) v) as [v'|] eqn:E; [|done].
    constructor; [|done]. by eapply Hvisit.
  - rewrite cleanDeep_Obj. apply protoFree_Obj.
    split; [apply lookup_delete_eq|]. intros k v'.
    intros [_ Hv']%lookup_delete_Some. revert Hv'.
    rewrite lookup_omap. destruct (m !! k) as [v|] eqn:Hk; [|done].
    simpl. intros E. eapply Hvisit; [|done]. by eapply IH.
Qed.

(** A value that holds nothing to remove is visited without change. *)
Lemma visit_fixed (v : value) :
  (isContainer v = true → cleanDeep o v = v) →
  excluded o v = false →
  visit o (cleanDeep o) v = Some v.
Proof.
  intros Hfix Hex. unfold visit.
  assert (pruneChild (cleanDeep o) v = v) as ->.
  { destruct v; try done; by apply Hfix. }
  by rewrite Hex.
Qed.

Lemma cleanDeep_fixed (x : value) :
  isContainer x = true → pruned o x = true → protoFree x = true →
  cleanDeep o x = x.
Proof.
  induction x as [| |b|n|s|l IH|m IH] using value_ind'; try done.
  - intros _ Hp%pruned_Arr Hf%protoFree_Arr. rewrite cleanDeep_Arr. f_equal.
    induction IH as [|v l Hv _ IHl]; [done|].
    apply Forall_cons in Hp as [[Hex Hpv] Hl].
    apply Forall_cons in Hf as [Hfv Hf].
    cbn [omap list_omap]. rewrite (visit_fixed v) by auto.
    by rewrite (IHl Hl Hf).
  - intros _ Hp%pruned_Obj [Hproto Hf]%protoFree_Obj.
    rewrite cleanDeep_Obj. f_equal.
    rewrite delete_id by (by rewrite lookup_omap, Hproto).
    apply map_eq. intros k. rewrite lookup_omap.
    destruct (m !! k) as [v|] eqn:Hk; [|done]. simpl.
    destruct (Hp k v Hk) as [Hex Hpv].
    apply visit_fixed; [|done]. intros Hc.
    by apply (IH k v Hk); [| |apply (Hf k v Hk)].
Qed.

End cleanDeep_more.

(** X1. Whatever the flags, the result of [cleanDeep] holds, at any
    depth, no value that the callback's tests would remove: no further
    call can find anything to prune inside it. *)
Theorem cleanDeep_leaves_nothing_to_prune (o : PruneOptions) (x : value) :
  pruned o (cleanDeep o x) = true.
Proof. apply cleanDeep_pruned. Qed.

(** X2. [cleanDeep] returns a value equal to its argument exactly when
    the argument is an array or an object that holds nothing to prune and
    in which no mapping has a key named [__proto__]. *)
Theorem cleanDeep_fixed_points (o : PruneOptions) (x : value) :
  cleanDeep o x = x
  ↔ isContainer x = true ∧ pruned o x = true ∧ protoFree x = true.
Proof.
  split.
  - intros Hx. split; [|split].
    + rewrite <-Hx. by destruct (cleanDeep_container o x) as [[? ->]|[? ->]].
    + rewrite <-Hx. apply cleanDeep_pruned.
    + rewrite <-Hx. apply cleanDeep_protoFree.
  - intros (Hc & Hp & Hf). by apply cleanDeep_fixed.
Qed.

Lemma cleanDeep_fixed_points_witness :
  cleanDeep defaultOptions (Obj {[ "peers" := Arr [Str "10.0.0.1"] ]})
  = Obj {[ "peers" := Arr [Str "10.0.0.1"] ]}.
Proof.
  apply (cleanDeep_fixed_points defaultOptions
           (Obj {[ "peers" := Arr [Str "10.0.0.1"] ]})).
  repeat split; vm_compute; reflexivity.
Defined.

Lemma excluded_noOptions (v : value) : excluded noOptions v = false.
Proof. rewrite excluded_cases. by destruct v as [| |?|?|[|??]|[|??]|?]. Qed.

Lemma pruned_noOptions (x : value) : pruned noOptions x = true.
Proof.
  induction x as [| |b|n|s|l IH|m IH] using value_ind'; try done.
  - apply pruned_Arr. eapply Forall_impl; [done|].
    intros e He. split; [apply excluded_noOptions|done].
  - apply pruned_Obj. intros k e Hk.
    split; [apply excluded_noOptions|]. by apply (IH k e Hk).
Qed.

(** X3. With every flag switched off [cleanDeep] removes nothing from an
    array or an object in which no mapping has a key named [__proto__]:
    it comes back equal to what went in, at every depth. *)
Theorem cleanDeep_noOptions_identity (x : value) :
  isContainer x = true → protoFree x = true →
  cleanDeep noOptions x = x.
Proof.
  intros Hc Hf. apply cleanDeep_fixed; [done|apply pruned_noOptions|done].
Qed.

Lemma cleanDeep_noOptions_identity_witness :
  cleanDeep noOptions (Obj {[ "port" := Null; "peers" := Arr [Str ""; Obj ∅] ]})
  = Obj {[ "port" := Null; "peers" := Arr [Str ""; Obj ∅] ]}.
Proof.
  apply (cleanDeep_noOptions_identity
           (Obj {[ "port" := Null; "peers" := Arr [Str ""; Obj ∅] ]}));
    vm_compute; reflexivity.
Defined.

Lemma length_omap_le {A B} (f : A → option B) (l : list A) :
  (length (omap f l) ≤ length l)%nat.
Proof.
  induction l as [|a l IH]; [done|]. cbn [omap list_omap].
  destruct (f a); simpl; lia.
Qed.

(** X4. [cleanDeep] never adds anything: an array gives an array that is
    no longer, an object gives an object whose keys are among the keys it
    had, and a primitive other than a string gives the empty object. *)
Theorem cleanDeep_only_removes (o : PruneOptions) :
  (∀ l : list value,
     ∃ l', cleanDeep o (Arr l) = Arr l' ∧ (length l' ≤ length l)%nat)
  ∧ (∀ m : gmap string value,
       ∃ m', cleanDeep o (Obj m) = Obj m' ∧ dom m' ⊆ dom m)
  ∧ (∀ x : value,
       isContainer x = false → (∀ s, x ≠ Str s) → cleanDeep o x = Obj ∅).
Proof.
  split; [|split].
  - intros l. eexists. split; [apply cleanDeep_Arr|apply length_omap_le].
  - intros m. eexists. split; [apply cleanDeep_Obj|].
    etrans; [apply subseteq_dom, delete_subseteq|apply dom_omap_subseteq].
  - intros x Hc Hs. destruct x; try done. by destruct (Hs s).
Qed.

Lemma cleanDeep_only_removes_witness :
  cleanDeep defaultOptions Null = Obj ∅.
Proof.
  apply (proj2 (proj2 (cleanDeep_only_removes defaultOptions)) Null).
  - reflexivity.
  - intros s. discriminate.
Defined.

(** X20. Whatever the input and the flags, no mapping in the result of
    [cleanDeep] has a key named [__proto__], at any depth: the assignment
    of the callback never creates that key. *)
Theorem cleanDeep_never_proto (o : PruneOptions) (x : value) :
  protoFree (cleanDeep o x) = true.
Proof. apply cleanDeep_protoFree. Qed.

(* ===================================================================== *)
(** * Further properties of [extractPeersList] *)
(* ===================================================================== *)

Section split_more.
Context (sep : ascii).

(** One segment more than there are separators. *)
Lemma split_length (s : string) :
  length (split sep s) = S (occurrences sep s).
Proof.
  induction s as [|a s IH]; [done|]. cbn [split occurrences].
  destruct (Ascii.eqb a sep); simpl.
  - by rewrite IH.
  - destruct (split sep s); simpl in *; lia.
Qed.

(** A segment has no more of any character than the string had. *)
Lemma split_occurrences_le (c : ascii) (s x : string) :
  x ∈ split sep s → (occurrences c x ≤ occurrences c s)%nat.
Proof.
  revert x. induction s as [|a s IH]; intros x; cbn [split occurrences].
  - intros ->%list_elem_of_singleton. done.
  - destruct (Ascii.eqb a sep).
    + intros [->|Hx]%elem_of_cons; [simpl; lia|].
      specialize (IH x Hx). lia.
    + pose proof (split_nonempty sep s) as Hne.
      destruct (split sep s) as [|y r]; [done|].
      intros [->|Hx]%elem_of_cons.
      * cbn [occurrences]. specialize (IH y (list_elem_of_here _ _)). lia.
      * specialize (IH x (list_elem_of_further _ _ _ Hx)). lia.
Qed.

(** A segment does not contain the separator. *)
Lemma split_no_separator (s x : string) :
  x ∈ split sep s → occurrences sep x = 0%nat.
Proof.
  revert x. induction s as [|a s IH]; intros x; cbn [split].
  - intros ->%list_elem_of_singleton. done.
  - destruct (Ascii.eqb a sep) eqn:Ha.
    + intros [->|Hx]%elem_of_cons; [done|]. by apply IH.
    + pose proof (split_nonempty sep s) as Hne.
      destruct (split sep s) as [|y r]; [done|].
      intros [->|Hx]%elem_of_cons.
      * cbn [occurrences]. rewrite Ha.
        by rewrite (IH y (list_elem_of_here _ _)).
      * apply IH. by apply list_elem_of_further.
Qed.

(** A string without the separator is its own single segment. *)
Lemma split_none (s : string) :
  occurrences sep s = 0%nat → split sep s = [s].
Proof.
  induction s as [|a s IH]; [done|]. cbn [split occurrences].
  destruct (Ascii.eqb a sep); [done|]. simpl. intros Hs. by rewrite IH.
Qed.

End split_more.

(** The records of a string, one per entry. *)
Lemma extractPeersList_Str (s : string) (defaultPort : value) :
  extractPeersList (Str s) defaultPort
  = Arr (peerRecord defaultPort <$> split "," s).
Proof.
  unfold extractPeersList. f_equal.
  apply list_fmap_ext. intros _ entry _. unfold peerRecord.
  pose proof (split_nonempty ":" entry) as Hne.
  destruct (split ":" entry) as [|host [|[|c port] rest]]; done.
Qed.

(** X5. On a string the parser yields exactly one record per entry, one
    more than the string has commas: no entry is dropped, whatever it
    holds, and the empty string still yields one record. *)
Theorem extractPeersList_count (s : string) (defaultPort : value) :
  ∃ records,
    extractPeersList (Str s) defaultPort = Arr records
    ∧ length records = S (occurrences "," s).
Proof.
  eexists. split; [apply extractPeersList_Str|].
  by rewrite length_fmap, split_length.
Qed.

(** X6. Every record the parser yields has the two keys [ip] and
    [wsPort] and no other; [ip] is a string with no comma and no colon in
    it; [wsPort] is the default port or a non-empty string with no comma
    and no colon in it. *)
Theorem extractPeersList_records (s : string) (defaultPort record : value) :
  record ∈ peersOf (extractPeersList (Str s) defaultPort) →
  ∃ host port,
    record = Obj {[ "ip" := Str host; "wsPort" := port ]}
    ∧ occurrences "," host = 0%nat ∧ occurrences ":" host = 0%nat
    ∧ (port = defaultPort
       ∨ ∃ p, port = Str p ∧ p ≠ ""
              ∧ occurrences "," p = 0%nat ∧ occurrences ":" p = 0%nat).
Proof.
  rewrite extractPeersList_Str. cbn [peersOf].
  intros (entry & -> & Hentry)%list_elem_of_fmap.
  pose proof (split_no_separator _ _ _ Hentry) as Hcomma.
  assert (Hseg : ∀ x, x ∈ split ":" entry →
            occurrences "," x = 0%nat ∧ occurrences ":" x = 0%nat).
  { intros x Hx. split; [|by eapply split_no_separator].
    pose proof (split_occurrences_le ":" "," _ _ Hx). lia. }
  unfold peerRecord. pose proof (split_nonempty ":" entry) as Hne.
  destruct (split ":" entry) as [|host rest]; [done|].
  exists host. cbn [head default from_option id].
  destruct (Hseg host) as [? ?]; [by left|].
  destruct rest as [|p rest]; cbn [lookup list_lookup].
  - eexists. split; [done|]. split; [done|]. split; [done|]. by left.
  - destruct (Hseg p) as [? ?]; [right; by left|].
    destruct p as [|c p].
    + eexists. split; [done|]. split; [done|]. split; [done|]. by left.
    + eexists. split; [done|]. split; [done|]. split; [done|].
      right. by eexists.
Qed.

Lemma extractPeersList_records_witness :
  ∃ host port,
    Obj {[ "ip" := Str "10.0.0.2"; "wsPort" := n 36666 ]}
    = Obj {[ "ip" := Str host; "wsPort" := port ]}
    ∧ occurrences "," host = 0%nat ∧ occurrences ":" host = 0%nat
    ∧ (port = n 36666
       ∨ ∃ p, port = Str p ∧ p ≠ ""
              ∧ occurrences "," p = 0%nat ∧ occurrences ":" p = 0%nat).
Proof.
  apply (extractPeersList_records "10.0.0.1:36668,10.0.0.2" (n 36666)).
  vm_compute. right. left.
Defined.

(** X7. On a list that names no port, every record gets the default
    port, and the hosts of the records, joined by commas, give the input
    back. *)
Theorem extractPeersList_hosts_only (s : string) (defaultPort : value) :
  occurrences ":" s = 0%nat →
  extractPeersList (Str s) defaultPort
  = Arr ((λ host, Obj {[ "ip" := Str host; "wsPort" := defaultPort ]})
           <$> split "," s)
  ∧ String.concat "," (split "," s) = s.
Proof.
  intros Hs. split; [|apply split_concat].
  rewrite extractPeersList_Str. f_equal.
  apply list_fmap_ext. intros _ entry Hentry%list_elem_of_lookup_2.
  pose proof (split_occurrences_le "," ":" _ _ Hentry) as Hle.
  unfold peerRecord. rewrite split_none by lia. done.
Qed.

Lemma extractPeersList_hosts_only_witness :
  extractPeersList (Str "a.example,b.example") (n 36666)
  = Arr [Obj {[ "ip" := Str "a.example"; "wsPort" := n 36666 ]};
         Obj {[ "ip" := Str "b.example"; "wsPort" := n 36666 ]}]
  ∧ String.concat "," (split "," "a.example,b.example") = "a.example,b.example".
Proof.
  apply (extractPeersList_hosts_only "a.example,b.example" (n 36666)).
  reflexivity.
Defined.

(* ===================================================================== *)
(** * Further properties of [validateForce] *)
(* ===================================================================== *)

Lemma read_Returned (v : value) (name : string) (x : value) (evs : list event) :
  read v name = (evs, Returned x) → get v name = Some x ∧ evs = [].
Proof. unfold read. destruct (get v name); [|done]. by intros [= <- <-]. Qed.

(** The three ways a call returns: [forging.force] is falsy; it is truthy
    and the nethash is not listed; it is truthy, the nethash is listed,
    and the config comes back with [forging.force] set to [false] after
    the notice. *)
Lemma validateForce_cases (configData configData' : value) (evs : list event) :
  validateForce configData = (evs, Returned configData') →
  ∃ forging force,
    get configData "forging" = Some forging
    ∧ get forging "force" = Some force
    ∧ ((truthy force = false ∧ evs = [] ∧ configData' = configData)
       ∨ (truthy force = true
          ∧ ∃ constants hashes nethash,
              get configData "constants" = Some constants
              ∧ get constants "nethashes" = Some (Arr hashes)
              ∧ get configData "nethash" = Some nethash
              ∧ ((listed hashes nethash = false ∧ evs = []
                  ∧ configData' = configData)
                 ∨ (listed hashes nethash = true
                    ∧ evs = [console_log
                               [Str "Forced forging disabled for nethash";
                                nethash]]
                    ∧ ∃ c f, configData = Obj c
                             ∧ c !! "forging" = Some (Obj f)
                             ∧ configData' = forceDisabled c f)))).
Proof.
  unfold validateForce. intros Hrun.
  apply run_bind_Returned in Hrun as (? & forging & ? & Hforging & Hrun & ->).
  apply read_Returned in Hforging as [Hforging ->].
  apply run_bind_Returned in Hrun as (? & force & ? & Hforce & Hrun & ->).
  apply read_Returned in Hforce as [Hforce ->].
  exists forging, force. split; [done|]. split; [done|].
  destruct (truthy force) eqn:Htruthy; [|injection Hrun as <- <-; by left].
  right. split; [done|].
  apply run_bind_Returned in Hrun as (? & constants & ? & Hc & Hrun & ->).
  apply read_Returned in Hc as [Hc ->].
  apply run_bind_Returned in Hrun as (? & nethashes & ? & Hn & Hrun & ->).
  apply read_Returned in Hn as [Hn ->].
  destruct nethashes as [| |?|?|?|hashes|?]; try done.
  apply run_bind_Returned in Hrun as (? & nethash & ? & Hh & Hrun & ->).
  apply read_Returned in Hh as [Hh ->].
  exists constants, hashes, nethash. repeat (split; [done|]).
  rewrite indexOf_listed in Hrun.
  destruct (listed hashes nethash); [|injection Hrun as <- <-; by left].
  right. split; [done|].
  apply run_bind_Returned in Hrun as (? & [] & ? & [= <-] & Hrun & ->).
  unfold disableForce in Hrun.
  destruct configData as [| |?|?|?|?|c]; try done.
  destruct (c !! "forging") as [[| |?|?|?|?|f]|] eqn:Hf; try done.
  injection Hrun as <- <-. split; [done|]. by exists c, f.
Qed.

(** The Safety Override touches no key of the config but [forging]. *)
Lemma validateForce_other (configData configData' : value) (evs : list event)
    (k : string) :
  validateForce configData = (evs, Returned configData') →
  k ≠ "forging" → own configData' k = own configData k.
Proof.
  intros Hrun Hk.
  destruct (validateForce_cases _ _ _ Hrun)
    as (? & ? & _ & _
        & [(_ & _ & ->)|(_ & ? & ? & ? & _ & _ & _
                         & [(_ & _ & ->)|(_ & _ & c & f & -> & _ & ->)])]);
    try done.
  unfold forceDisabled. cbn [own]. by rewrite lookup_insert_ne.
Qed.

Lemma validateForce_safe (configData configData' : value)
    (evs : list event) (forging force constants nethash : value)
    (hashes : list value) :
  validateForce configData = (evs, Returned configData') →
  get configData' "forging" = Some forging →
  get forging "force" = Some force →
  get configData' "constants" = Some constants →
  get constants "nethashes" = Some (Arr hashes) →
  get configData' "nethash" = Some nethash →
  truthy force && listed hashes nethash = false.
Proof.
  intros Hrun Hf Hforce Hc Hh Hn.
  destruct (validateForce_cases _ _ _ Hrun)
    as (forging0 & force0 & Hf0 & Hforce0
        & [(Hfalsy & _ & ->)|(_ & constants0 & hashes0 & nethash0 & Hc0 & Hh0 & Hn0
                              & [(Hno & _ & ->)|(_ & _ & c & f & -> & Hcf & ->)])]).
  - simplify_eq. by rewrite Hfalsy.
  - simplify_eq. rewrite Hno. apply andb_false_r.
  - unfold forceDisabled in Hf. cbn [get] in Hf.
    rewrite lookup_insert_eq in Hf. injection Hf as <-.
    cbn [get] in Hforce. rewrite lookup_insert_eq in Hforce.
    by injection Hforce as <-.
Qed.

(** X8. The Safety Override is idempotent: on the config a call has
    returned, a second call changes nothing and prints nothing. *)
Theorem validateForce_idempotent (configData configData' : value)
    (evs : list event) :
  validateForce configData = (evs, Returned configData') →
  validateForce configData' = ([], Returned configData').
Proof.
  intros Hrun.
  destruct (validateForce_cases _ _ _ Hrun)
    as (forging & force & Hf & Hforce
        & [(_ & -> & ->)|(_ & constants & hashes & nethash & _ & _ & _
                          & [(_ & -> & ->)|(_ & _ & c & f & -> & Hcf & ->)])]);
    try done.
  unfold validateForce, forceDisabled, read, get.
  rewrite lookup_insert_eq. cbn. rewrite lookup_insert_eq. done.
Qed.

Lemma validateForce_idempotent_witness :
  validateForce
    (Obj {[ "forging" := Obj {[ "force" := Bool false ]};
            "constants" := Obj {[ "nethashes" := Arr [Str "H1"; Str "H2"] ]};
            "nethash" := Str "H1" ]})
  = ([], Returned
           (Obj {[ "forging" := Obj {[ "force" := Bool false ]};
                   "constants" := Obj {[ "nethashes" := Arr [Str "H1"; Str "H2"] ]};
                   "nethash" := Str "H1" ]})).
Proof.
  apply (validateForce_idempotent
           (Obj {[ "forging" := Obj {[ "force" := Bool true ]};
                   "constants" := Obj {[ "nethashes" := Arr [Str "H1"; Str "H2"] ]};
                   "nethash" := Str "H1" ]})
           _ [console_log [Str "Forced forging disabled for nethash"; Str "H1"]]).
  vm_compute. reflexivity.
Defined.

(** X9. After a call that returns, the config never has both a truthy
    [forging.force] and a nethash that [constants.nethashes] lists. *)
Theorem validateForce_postcondition (configData configData' : value)
    (evs : list event) (forging force constants nethash : value)
    (hashes : list value) :
  validateForce configData = (evs, Returned configData') →
  get configData' "forging" = Some forging →
  get forging "force" = Some force →
  get configData' "constants" = Some constants →
  get constants "nethashes" = Some (Arr hashes) →
  get configData' "nethash" = Some nethash →
  truthy force && listed hashes nethash = false.
Proof. apply validateForce_safe. Qed.

Lemma validateForce_postcondition_witness :
  truthy (Bool false) && listed [Str "H1"; Str "H2"] (Str "H1") = false.
Proof.
  apply (validateForce_postcondition
           (Obj {[ "forging" := Obj {[ "force" := Bool true ]};
                   "constants" := Obj {[ "nethashes" := Arr [Str "H1"; Str "H2"] ]};
                   "nethash" := Str "H1" ]})
           (Obj {[ "forging" := Obj {[ "force" := Bool false ]};
                   "constants" := Obj {[ "nethashes" := Arr [Str "H1"; Str "H2"] ]};
                   "nethash" := Str "H1" ]})
           [console_log [Str "Forced forging disabled for nethash"; Str "H1"]]
           (Obj {[ "force" := Bool false ]}) (Bool false)
           (Obj {[ "nethashes" := Arr [Str "H1"; Str "H2"] ]}) (Str "H1")
           [Str "H1"; Str "H2"]);
    vm_compute; reflexivity.
Defined.

(** X10. The Safety Override throws a TypeError, before printing
    anything, on a config without a [forging] section, and, when
    [forging.force] is truthy, on a config without [constants] or whose
    [constants.nethashes] is neither an array nor a string.  With a falsy
    [forging.force] it returns without looking at [constants] at all. *)
Theorem validateForce_throws (c : gmap string value) :
  (nullish (default Undefined (c !! "forging")) →
   validateForce (Obj c) = ([], Thrown TypeError))
  ∧ (∀ (f : gmap string value) (force : value),
       c !! "forging" = Some (Obj f) →
       force = default Undefined (f !! "force") →
       (truthy force = false → validateForce (Obj c) = ([], Returned (Obj c)))
       ∧ (truthy force = true →
          nullish (default Undefined (c !! "constants")) →
          validateForce (Obj c) = ([], Thrown TypeError))
       ∧ (truthy force = true →
          ∀ k, c !! "constants" = Some (Obj k) →
               match default Undefined (k !! "nethashes") with
               | Arr _ | Str _ => True
               | _ => validateForce (Obj c) = ([], Thrown TypeError)
               end)).
Proof.
  split.
  - intros Hf. unfold validateForce, read, get.
    by destruct Hf as [-> | ->].
  - intros f force Hf ->. unfold validateForce, read. cbn [get].
    rewrite Hf. cbn. split; [|split].
    + by intros ->.
    + intros -> Hc. by destruct Hc as [-> | ->].
    + intros -> k ->. cbn. by destruct (default Undefined (k !! "nethashes")).
Qed.

Lemma validateForce_throws_witness :
  validateForce (Obj {[ "nethash" := Str "H1" ]}) = ([], Thrown TypeError).
Proof.
  apply (proj1 (validateForce_throws {[ "nethash" := Str "H1" ]})).
  left. reflexivity.
Defined.

(* ===================================================================== *)
(** * Further properties of the merges *)
(* ===================================================================== *)

(** Passing over a key of the source does not depend on the
    destination, unless the destination has the key. *)
Lemma skipped_empty (obj : gmap string value) (k : string) (sv : value) :
  Lodash.skipped obj k sv
  = Lodash.skipped ∅ k sv && (isContainer sv || bool_decide (obj !! k = None)).
Proof.
  unfold Lodash.skipped. rewrite lookup_empty.
  destruct sv; cbn [isContainer orb]; by rewrite ?andb_true_r.
Qed.

Lemma elem_of_mergedKeys (src : gmap string value) (k : string) :
  k ∈ mergedKeys src
  ↔ ∃ sv, src !! k = Some sv ∧ Lodash.skipped ∅ k sv = false.
Proof.
  unfold mergedKeys. rewrite elem_of_dom. unfold is_Some.
  by setoid_rewrite map_lookup_filter_Some.
Qed.

Lemma baseMerge_Obj_dom (obj src m : gmap string value) :
  Lodash.baseMerge (Obj obj) (Obj src) = Some (Obj m) →
  dom m = dom obj ∪ mergedKeys src.
Proof.
  intros (m' & [= <-] & Hm)%baseMerge_Obj_Some.
  apply set_eq. intros k.
  rewrite elem_of_union, elem_of_mergedKeys, !elem_of_dom.
  pose proof (mergeProps_lookup _ _ _ k Hm) as Hk.
  destruct (src !! k) as [sv|].
  - rewrite skipped_empty in Hk.
    assert ((∃ sv0, Some sv = Some sv0 ∧ Lodash.skipped ∅ k sv0 = false)
            ↔ Lodash.skipped ∅ k sv = false) as ->.
    { split; [by intros (? & [= <-] & ?)|eauto]. }
    destruct (Lodash.skipped ∅ k sv) eqn:Hs; cbn [andb] in Hk.
    + destruct (isContainer sv || bool_decide (obj !! k = None)) eqn:Hc.
      * rewrite Hk. split; [by left|by intros [?|?]].
      * destruct Hk as (nv & _ & ->). apply orb_false_iff in Hc as [_ Hc].
        apply bool_decide_eq_false in Hc. split; [intros _; left|eauto].
        by destruct (obj !! k).
    + destruct Hk as (nv & _ & ->). split; [by right|eauto].
  - rewrite Hk. split; [by left|]. by intros [?|(? & [=] & _)].
Qed.

(** Every key of a source pruned under the default flags is assigned. *)
Lemma mergedKeys_pruned (cli : gmap string value) :
  mergedKeys (delete "__proto__"
                (omap (visit defaultOptions (cleanDeep defaultOptions)) cli))
  = dom (delete "__proto__"
           (omap (visit defaultOptions (cleanDeep defaultOptions)) cli)).
Proof.
  apply set_eq. intros k. rewrite elem_of_mergedKeys, elem_of_dom.
  split; [intros (sv & -> & _); eauto|]. intros [sv Hk]. exists sv.
  split; [done|]. apply lookup_delete_Some in Hk as [Hne Hk].
  rewrite lookup_omap in Hk. destruct (cli !! k) as [v|]; [|done].
  cbn [mbind option_bind] in Hk. unfold visit in Hk.
  destruct (excluded defaultOptions _) eqn:Hex; [done|]. injection Hk as <-.
  unfold Lodash.skipped.
  destruct (pruneChild _ v); try done; by rewrite bool_decide_eq_false_2.
Qed.



Section merge_again.

Lemma mergeElems_again (src : list value) :
  Forall settled src →
  ∀ obj l, mergeElems src obj = Some l → mergeElems src l = Some l.
Proof.
  induction 1 as [|sv src Hsv _ IH]; intros obj l; simpl.
  - by intros [= <-].
  - destruct (Lodash.mergeSlot _ (head obj) sv) as [nv|] eqn:Hslot; [|done].
    simpl. destruct (mergeElems src (tail obj)) as [rest|] eqn:Hrest; [|done].
    simpl. intros [= <-]. simpl.
    rewrite (Hsv _ _ Hslot). simpl. by rewrite (IH _ _ Hrest).
Qed.

Lemma mergeProps_again (src : gmap string value) :
  map_Forall (λ _, settled) src →
  ∀ obj m, mergeProps obj src = Some m → mergeProps m src = Some m.
Proof.
  intros Hsrc obj m Hm. apply mergeProps_Some. intros k.
  pose proof (mergeProps_lookup _ _ _ k Hm) as Hl.
  destruct (src !! k) as [sv|] eqn:Hk; [|done].
  destruct (Lodash.skipped m k sv) eqn:Hs; [done|].
  destruct (Lodash.skipped obj k sv) eqn:Hs'.
  - by rewrite (skipped_lookup m obj), Hs' in Hs.
  - destruct Hl as (nv & Hslot & Hnv). exists nv. rewrite Hnv.
    split; [|done]. by eapply (Hsrc k sv Hk).
Qed.

Lemma settled_all (sv : value) : settled sv.
Proof.
  induction sv as [| |b|x|s|l IH|m IH] using value_ind'; intros o r;
    try (by intros [= <-]).
  - assert (∀ a, Lodash.baseMerge (Arr a) (Arr l) = Some r →
                 Lodash.mergeSlot Lodash.baseMerge (Some r) (Arr l) = Some r)
      as Harr.
    { intros a. rewrite baseMerge_Arr.
      destruct (mergeElems l a) as [l'|] eqn:Hl; [|done]. intros [= <-].
      cbn [Lodash.mergeSlot]. rewrite baseMerge_Arr.
      by rewrite (mergeElems_again l IH _ _ Hl). }
    cbn [Lodash.mergeSlot].
    destruct o as [[| |?|?|?|a|o']|]; try apply Harr.
    destruct (Lodash.isLength _); [|apply Harr].
    destruct (Lodash.copyArray o') as [a|]; [|done]. apply Harr.
  - assert (∀ a, Lodash.baseMerge (Obj a) (Obj m) = Some r →
                 Lodash.mergeSlot Lodash.baseMerge (Some r) (Obj m) = Some r)
      as Hobj.
    { intros a. rewrite baseMerge_Obj.
      destruct (mergeProps a m) as [m'|] eqn:Hm; [|done]. intros [= <-].
      cbn [Lodash.mergeSlot]. rewrite baseMerge_Obj.
      by rewrite (mergeProps_again m IH _ _ Hm). }
    cbn [Lodash.mergeSlot].
    destruct o as [[| |?|?|?|a|o']|]; try apply Hobj. done.
Qed.

Lemma baseMerge_again (object source r : value) :
  Lodash.baseMerge object source = Some r →
  Lodash.baseMerge r source = Some r.
Proof.
  destruct source as [| |?|?|?|l|m]; try done;
    destruct object as [| |?|?|?|a|o]; try done.
  - rewrite baseMerge_Arr.
    destruct (mergeElems l a) as [l'|] eqn:Hl; [|done]. intros [= <-].
    rewrite baseMerge_Arr.
    erewrite mergeElems_again; [done| |done].
    apply Forall_forall. intros ? _. apply settled_all.
  - rewrite baseMerge_Obj.
    destruct (mergeProps o m) as [m'|] eqn:Hm; [|done]. intros [= <-].
    rewrite baseMerge_Obj.
    erewrite mergeProps_again; [done| |done].
    intros ? ? _. apply settled_all.
Qed.

End merge_again.

(** X12. Merging a source a second time changes nothing: what
    [_.merge(object, source)] has produced is a fixed point of merging
    [source] into it.  The constants and the exceptions are merged this
    way into the module objects that [require] keeps. *)
Theorem merge_again_same (object source r : value) :
  Lodash.merge object [source] = Some r →
  Lodash.merge r [source] = Some r.
Proof.
  unfold Lodash.merge. cbn [foldl].
  destruct (Lodash.toObject object) as [o|] eqn:Ho; [|done].
  cbn [mbind option_bind].
  assert (Hcont : ∀ v, isContainer v = true → Lodash.toObject v = Some v).
  { by intros []. }
  assert (isContainer o = true) as Ho'.
  { destruct object; try done; by injection Ho as <-. }
  assert (Hmerged : ∀ x, Lodash.baseMerge o source = Some x →
                         Lodash.toObject x = Some x).
  { intros x Hx. apply Hcont.
    destruct source as [| |?|?|?|l|m]; try done;
      destruct o as [| |?|?|?|a|o1]; try done.
    - rewrite baseMerge_Arr in Hx. by destruct (mergeElems l a); simplify_eq/=.
    - rewrite baseMerge_Obj in Hx. by destruct (mergeProps o1 m); simplify_eq/=. }
  destruct (truthy source) eqn:Ht.
  - destruct source as [| |?|?|?|l|m]; try done;
      try (intros [= <-]; rewrite (Hcont _ Ho'); cbn; by rewrite ?Ht).
    + intros Hr. rewrite (Hmerged _ Hr). cbn [mbind option_bind truthy].
      by eapply baseMerge_again.
    + intros Hr. rewrite (Hmerged _ Hr). cbn [mbind option_bind truthy].
      by eapply baseMerge_again.
  - intros [= <-]. by rewrite (Hcont _ Ho').
Qed.

Lemma merge_again_same_witness :
  Lodash.merge (Obj {[ "nethashes" := Arr [Str "H1"] ]})
               [Obj {[ "nethashes" := Arr [Str "H1"] ]}]
  = Some (Obj {[ "nethashes" := Arr [Str "H1"] ]}).
Proof.
  apply (merge_again_same (Obj {[ "nethashes" := Arr [Str "H0"] ]})).
  vm_compute. reflexivity.
Defined.

(* ===================================================================== *)
(** * Further properties of [Config] *)
(* ===================================================================== *)

Section Config_more.
Context (H : Host).

Lemma loadJSONFile_Returned (filePath data : value) (evs : list event) :
  loadJSONFile H filePath = (evs, Returned data) →
  ∃ p, filePath = Str p
       ∧ readJSON H (path_resolve H (rootPath H) p) = inr data
       ∧ evs = [].
Proof.
  destruct filePath as [| |?|?|p|?|?]; try done. cbn [loadJSONFile].
  destruct (readJSON H _) as [message|data'] eqn:Hread; [done|].
  intros [= <- <-]. eauto.
Qed.

Lemma required_Returned (module : string) (exports : value) (evs : list event) :
  required H module = (evs, Returned exports) →
  require H module = Some exports ∧ evs = [].
Proof.
  unfold required. destruct (require H module); [|done].
  by intros [= <- <-].
Qed.

Lemma commandLineConfig_Returned (program : gmap string value)
    (defaultConfig customConfig cli : value) (evs : list event) :
  commandLineConfig H program defaultConfig customConfig = (evs, Returned cli) →
  ∃ defaultPort, cli = Obj (cliSource H program defaultPort) ∧ evs = [].
Proof.
  unfold commandLineConfig. cbv zeta. intros Hrun.
  apply run_bind_Returned in Hrun as (evs1 & defaultPort & ? & Hport & Hrun & ->).
  injection Hrun as <- <-. exists defaultPort. split; [done|].
  rewrite app_nil_r.
  destruct (truthy _) in Hport; [by injection Hport as <- _|].
  apply run_bind_Returned in Hport as (? & customPort & ? & Hc & Hport & ->).
  apply read_Returned in Hc as [_ ->].
  destruct (truthy customPort); [by injection Hport as <- _|].
  by apply read_Returned in Hport as [_ ->].
Qed.

(** What is known when the sources have been loaded and merged: nothing
    was printed, the three files and the four modules were there, and the
    merged config is the precedence merge of the two files, the runtime
    source and the command-line source. *)
Lemma loadSources_Returned (packageJson : value) (program : gmap string value)
    (l : Loaded) (evs : list event) :
  loadSources H packageJson program = (evs, Returned l) →
  ∃ defaultConfig customConfig customPath version config minVersion nethash
    defaultPort,
    evs = []
    ∧ readJSON H (genesisPath H program) = inr (genesisBlock l)
    ∧ require H "../config/default/constants.js" = Some (defaultConstants l)
    ∧ require H ("../config/" ++ ToString (networkOf H program) ++ "/constants.js")
      = Some (customConstants l)
    ∧ require H "../config/default/exceptions.js" = Some (defaultExceptions l)
    ∧ require H ("../config/" ++ ToString (networkOf H program) ++ "/exceptions.js")
      = Some (customExceptions l)
    ∧ readJSON H (defaultConfigPath H) = inr defaultConfig
    ∧ customConfigFile H program = Str customPath
    ∧ readJSON H (path_resolve H (rootPath H) customPath) = inr customConfig
    ∧ get packageJson "version" = Some version
    ∧ get packageJson "config" = Some config
    ∧ get config "minVersion" = Some minVersion
    ∧ get (genesisBlock l) "payloadHash" = Some nethash
    ∧ appConfig defaultConfig customConfig
        (Obj (runtimeSource H (networkOf H program) version minVersion nethash))
        (Obj (cliSource H program defaultPort))
      = Some (merged l).
Proof.
  unfold loadSources. cbv zeta. fold (networkOf H program). intros Hrun.
  apply run_bind_Returned in Hrun as (? & genesis & ? & Hg & Hrun & ->).
  apply loadJSONFile_Returned in Hg as (? & [= <-] & Hg & ->).
  apply run_bind_Returned in Hrun as (? & dc & ? & Hdc & Hrun & ->).
  apply required_Returned in Hdc as [Hdc ->].
  apply run_bind_Returned in Hrun as (? & cc & ? & Hcc & Hrun & ->).
  apply required_Returned in Hcc as [Hcc ->].
  apply run_bind_Returned in Hrun as (? & de & ? & Hde & Hrun & ->).
  apply required_Returned in Hde as [Hde ->].
  apply run_bind_Returned in Hrun as (? & ce & ? & Hce & Hrun & ->).
  apply required_Returned in Hce as [Hce ->].
  apply run_bind_Returned in Hrun as (? & defaultConfig & ? & Hd & Hrun & ->).
  apply loadJSONFile_Returned in Hd as (? & [= <-] & Hd & ->).
  apply run_bind_Returned in Hrun as (? & customConfig & ? & Hc & Hrun & ->).
  apply loadJSONFile_Returned in Hc as (customPath & Hpath & Hc & ->).
  apply run_bind_Returned in Hrun as (? & version & ? & Hv & Hrun & ->).
  apply read_Returned in Hv as [Hv ->].
  apply run_bind_Returned in Hrun as (? & config & ? & Hcfg & Hrun & ->).
  apply read_Returned in Hcfg as [Hcfg ->].
  apply run_bind_Returned in Hrun as (? & minVersion & ? & Hmin & Hrun & ->).
  apply read_Returned in Hmin as [Hmin ->].
  apply run_bind_Returned in Hrun as (? & nethash & ? & Hn & Hrun & ->).
  apply read_Returned in Hn as [Hn ->].
  apply run_bind_Returned in Hrun as (? & cli & ? & Hcli & Hrun & ->).
  apply commandLineConfig_Returned in Hcli as (defaultPort & -> & ->).
  apply run_bind_Returned in Hrun as (? & app & ? & Happ & Hrun & ->).
  apply modelled_Returned in Happ as [Happ ->].
  injection Hrun as <- <-.
  exists defaultConfig, customConfig, customPath, version, config, minVersion,
    nethash, defaultPort.
  cbn [genesisBlock defaultConstants customConstants defaultExceptions
       customExceptions merged].
  repeat (split; [done|]). done.
Qed.

(** What is known when [Config] has returned. *)
Lemma Config_Returned (packageJson : value) (parseCommandLineOptions : bool)
    (configData : value) (evs : list event) :
  Config H packageJson parseCommandLineOptions = (evs, Returned configData) →
  ∃ program l evs1 evs3 m constants exceptions,
    parseCommandLine H packageJson parseCommandLineOptions
      = (evs1, Returned program)
    ∧ loadSources H packageJson program = ([], Returned l)
    ∧ validate H (merged l) = true
    ∧ merged l = Obj m
    ∧ Lodash.merge (defaultConstants l) [customConstants l] = Some constants
    ∧ Lodash.merge (defaultExceptions l) [customExceptions l] = Some exceptions
    ∧ validateForce
        (Obj (<["exceptions" := exceptions]>
                (<["constants" := constants]>
                   (<["genesisBlock" := genesisBlock l]> m))))
      = (evs3, Returned configData)
    ∧ evs = (evs1 ++ evs3)%list.
Proof.
  intros Hrun. unfold Config in Hrun.
  apply run_bind_Returned in Hrun as (evs1 & program & evs' & Hparse & Hrun & ->).
  apply run_bind_Returned in Hrun as (evs2 & l & evs3 & Hload & Hrun & ->).
  destruct (loadSources_Returned _ _ _ _ Hload) as (?&?&?&?&?&?&?&?& -> & _).
  unfold validateAndFinish in Hrun. cbv zeta in Hrun.
  destruct (validate H (merged l)) eqn:Hvalid; [|done]. cbn [negb] in Hrun.
  apply run_bind_Returned in Hrun as (? & a1 & ? & Ha1 & Hrun & ->).
  apply assign_Returned in Ha1 as (m & Hm & -> & ->).
  apply run_bind_Returned in Hrun as (? & constants & ? & Hc & Hrun & ->).
  apply modelled_Returned in Hc as [Hc ->].
  apply run_bind_Returned in Hrun as (? & a2 & ? & Ha2 & Hrun & ->).
  apply assign_Returned in Ha2 as (? & [= <-] & -> & ->).
  apply run_bind_Returned in Hrun as (? & exceptions & ? & He & Hrun & ->).
  apply modelled_Returned in He as [He ->].
  apply run_bind_Returned in Hrun as (? & a3 & evs4 & Ha3 & Hrun & ->).
  apply assign_Returned in Ha3 as (? & [= <-] & -> & ->).
  exists program, l, evs1, evs4, m, constants, exceptions.
  by repeat split.
Qed.

End Config_more.

Section Config_properties.
Context (H : Host).

(** The precedence merge ends with the runtime source and the pruned
    command-line source, whatever the two files hold. *)
Lemma appConfig_sources (defaultConfig customConfig : value)
    (r cli : gmap string value) (app : value) :
  appConfig defaultConfig customConfig (Obj r) (Obj cli) = Some app →
  ∃ m1 m2 m3,
    Lodash.baseMerge (Obj m1) (Obj r) = Some (Obj m2)
    ∧ Lodash.baseMerge (Obj m2)
        (Obj (delete "__proto__"
                (omap (visit defaultOptions (cleanDeep defaultOptions)) cli)))
      = Some (Obj m3)
    ∧ app = Obj m3.
Proof.
  unfold appConfig, Lodash.merge. rewrite cleanDeep_Obj. cbn [foldl truthy].
  set (first := Lodash.toObject defaultConfig ≫= _).
  destruct first as [x|]; [|done]. cbn [mbind option_bind].
  destruct (Lodash.baseMerge x (Obj r)) as [y|] eqn:H2; [|done].
  destruct x as [| |?|?|?|?|m1]; try done.
  destruct (baseMerge_Obj_Some _ _ _ H2) as (m2 & -> & _).
  cbn [mbind option_bind]. intros H3.
  destruct (baseMerge_Obj_Some _ _ _ H3) as (m3 & -> & _).
  by exists m1, m2, m3.
Qed.

(** X13. When the genesis block of the network cannot be read or parsed,
    [Config] prints the resolved path of the file and the message of the
    error on the error stream and the process exits with status 1,
    whatever the other files, the modules and the validator would give. *)
Theorem Config_unreadable_genesis (packageJson : value)
    (parseCommandLineOptions : bool) (program : gmap string value)
    (evs : list event) (message : string) :
  parseCommandLine H packageJson parseCommandLineOptions = (evs, Returned program) →
  readJSON H (genesisPath H program) = inl message →
  Config H packageJson parseCommandLineOptions
  = ((evs ++ [console_error [Str ("Failed to load file: " ++ genesisPath H program)];
              console_error [Str message]])%list,
     Exited 1).
Proof.
  intros Hparse Hread. unfold Config. rewrite Hparse. cbn [mbind run_bind].
  unfold loadSources. cbv zeta. fold (networkOf H program).
  cbn [loadJSONFile]. fold (genesisPath H program). rewrite Hread. done.
Qed.

(** X14. A config that [Config] returns carries, under [genesisBlock],
    the genesis block read from the file of the network, and under
    [constants] and [exceptions] the merge of the default module with the
    module of the network; all three files and all four modules were
    loaded. *)
Theorem Config_attachments (packageJson : value) (parseCommandLineOptions : bool)
    (configData : value) (evs : list event) :
  Config H packageJson parseCommandLineOptions = (evs, Returned configData) →
  ∃ program evs1 genesis defaultConfig customPath customConfig
    defaultConstants customConstants defaultExceptions customExceptions,
    parseCommandLine H packageJson parseCommandLineOptions
      = (evs1, Returned program)
    ∧ readJSON H (genesisPath H program) = inr genesis
    ∧ readJSON H (defaultConfigPath H) = inr defaultConfig
    ∧ customConfigFile H program = Str customPath
    ∧ readJSON H (path_resolve H (rootPath H) customPath) = inr customConfig
    ∧ require H "../config/default/constants.js" = Some defaultConstants
    ∧ require H ("../config/" ++ ToString (networkOf H program) ++ "/constants.js")
      = Some customConstants
    ∧ require H "../config/default/exceptions.js" = Some defaultExceptions
    ∧ require H ("../config/" ++ ToString (networkOf H program) ++ "/exceptions.js")
      = Some customExceptions
    ∧ own configData "genesisBlock" = Some genesis
    ∧ own configData "constants"
      = Lodash.merge defaultConstants [customConstants]
    ∧ own configData "exceptions"
      = Lodash.merge defaultExceptions [customExceptions].
Proof.
  intros (program & l & evs1 & evs3 & m & constants & exceptions
          & Hparse & Hload & _ & _ & Hc & He & Hforce & ->)%Config_Returned.
  destruct (loadSources_Returned _ _ _ _ _ Hload)
    as (dflt & cust & customPath & ? & ? & ? & ? & ? & _ & Hg & Hdc & Hcc & Hde
        & Hce & Hd & Hpath & Hcust & _).
  exists program, evs1, (genesisBlock l), dflt, customPath, cust,
    (defaultConstants l), (customConstants l), (defaultExceptions l),
    (customExceptions l).
  repeat (split; [done|]).
  rewrite !(validateForce_other _ _ _ _ Hforce) by done. cbn [own].
  rewrite Hc, He.
  rewrite lookup_insert_ne, lookup_insert_ne, lookup_insert_eq by done.
  rewrite lookup_insert_ne, lookup_insert_eq by done.
  by rewrite lookup_insert_eq.
Qed.

(** X15. A config that [Config] returns never has both a truthy
    [forging.force] and a nethash listed in its [constants.nethashes]. *)
Theorem Config_never_forces_listed (packageJson : value)
    (parseCommandLineOptions : bool) (configData : value) (evs : list event)
    (forging force constants nethash : value) (hashes : list value) :
  Config H packageJson parseCommandLineOptions = (evs, Returned configData) →
  get configData "forging" = Some forging →
  get forging "force" = Some force →
  get configData "constants" = Some constants →
  get constants "nethashes" = Some (Arr hashes) →
  get configData "nethash" = Some nethash →
  truthy force && listed hashes nethash = false.
Proof.
  intros (program & l & evs1 & evs3 & m & cs & es
          & _ & _ & _ & _ & _ & _ & Hforce & _)%Config_Returned.
  by eapply validateForce_safe.
Qed.

(** X16. Whatever the two config files hold, a config that [Config]
    returns has the install root under [root], the freshly generated
    nonce under [nonce] and, under [coverage], whether [NODE_ENV] is
    ["test"]. *)
Theorem Config_runtime_values (packageJson : value)
    (parseCommandLineOptions : bool) (configData : value) (evs : list event) :
  Config H packageJson parseCommandLineOptions = (evs, Returned configData) →
  own configData "root" = Some (Str (rootPath H))
  ∧ own configData "nonce" = Some (Str (randomstring_generate H 16))
  ∧ own configData "coverage"
    = Some (Bool (strict_eq (process_env H "NODE_ENV") (Str "test"))).
Proof.
  intros (program & l & evs1 & evs3 & m & cs & es
          & _ & Hload & _ & Hm & _ & _ & Hforce & _)%Config_Returned.
  destruct (loadSources_Returned _ _ _ _ _ Hload)
    as (dflt & cust & ? & version & ? & minVersion & nethash & defaultPort
        & _ & _ & _ & _ & _ & _ & _ & _ & _ & _ & _ & _ & _ & Happ).
  rewrite Hm in Happ.
  apply appConfig_sources in Happ as (m1 & m2 & m3 & H2 & H3 & [= ->]).
  rewrite !(validateForce_other _ _ _ _ Hforce) by done. cbn [own].
  rewrite !lookup_insert_ne by done.
  assert (Hcli : ∀ k, cliSource H program defaultPort !! k = None →
                      m3 !! k = m2 !! k).
  { intros k Hk. apply (baseMerge_Obj_other _ _ _ k H3).
    apply lookup_delete_None. right. by rewrite lookup_omap, Hk. }
  split; [|split].
  - rewrite Hcli by done.
    by apply (baseMerge_Obj_scalar _ _ _ _ _ H2).
  - rewrite Hcli by done.
    by apply (baseMerge_Obj_scalar _ _ _ _ _ H2).
  - apply (baseMerge_Obj_scalar _ _ _ _ _ H3); [|done].
    rewrite lookup_delete_ne, lookup_omap by done.
    assert (cliSource H program defaultPort !! "coverage"
            = Some (Bool (strict_eq (process_env H "NODE_ENV") (Str "test"))))
      as -> by reflexivity.
    generalize (strict_eq (process_env H "NODE_ENV") (Str "test")).
    by intros [].
Qed.

(** A requested port is a number or a non-empty string, and pruning
    keeps it. *)
Lemma requestedPort_truthy (program : gmap string value) :
  truthy (requestedPort H program) = true →
  isScalar (requestedPort H program)
  ∧ visit defaultOptions (cleanDeep defaultOptions) (requestedPort H program)
    = Some (requestedPort H program).
Proof.
  unfold requestedPort, process_env.
  generalize (ToNumber (StringToNumber H) (option_value program "port")).
  intros number. unfold or.
  destruct (truthy (Num number)) eqn:Hnum.
  - intros _. by destruct number as [[]|].
  - by destruct (env H !! "ADAMANT_HTTP_PORT") as [[|c s]|].
Qed.

(** X17. A port asked for on the command line or, failing that, in
    [ADAMANT_HTTP_PORT] is the port of the config that [Config] returns,
    whatever the files hold: the number of the command line in the first
    case, the string of the environment in the second. *)
Theorem Config_requested_port (packageJson : value)
    (parseCommandLineOptions : bool) (program : gmap string value)
    (configData : value) (evs0 evs : list event) :
  parseCommandLine H packageJson parseCommandLineOptions
    = (evs0, Returned program) →
  Config H packageJson parseCommandLineOptions = (evs, Returned configData) →
  truthy (requestedPort H program) = true →
  own configData "port" = Some (requestedPort H program).
Proof.
  intros Hparse0
    (program' & l & evs1 & evs3 & m & cs & es
     & Hparse & Hload & _ & Hm & _ & _ & Hforce & _)%Config_Returned Hport.
  rewrite Hparse0 in Hparse. injection Hparse as <- <-.
  destruct (loadSources_Returned _ _ _ _ _ Hload)
    as (dflt & cust & ? & version & ? & minVersion & nethash & defaultPort
        & _ & _ & _ & _ & _ & _ & _ & _ & _ & _ & _ & _ & _ & Happ).
  rewrite Hm in Happ.
  apply appConfig_sources in Happ as (m1 & m2 & m3 & H2 & H3 & [= ->]).
  rewrite !(validateForce_other _ _ _ _ Hforce) by done. cbn [own].
  rewrite !lookup_insert_ne by done.
  destruct (requestedPort_truthy program Hport) as [Hscalar Hvisit].
  apply (baseMerge_Obj_scalar _ _ _ _ _ H3); [|done].
  rewrite lookup_delete_ne, lookup_omap by done.
  assert (cliSource H program defaultPort !! "port"
          = Some (or (requestedPort H program) Null)) as -> by reflexivity.
  unfold or at 1. by rewrite Hport.
Qed.

(** X18. On success [Config] prints nothing of its own, apart from the
    notice of the Safety Override when it fires: the output is what the
    command-line parser printed, then at most that one notice. *)
Theorem Config_quiet (packageJson : value) (parseCommandLineOptions : bool)
    (configData : value) (evs : list event) :
  Config H packageJson parseCommandLineOptions = (evs, Returned configData) →
  ∃ program evs1,
    parseCommandLine H packageJson parseCommandLineOptions
      = (evs1, Returned program)
    ∧ (evs = evs1
       ∨ ∃ nethash,
           evs = (evs1 ++ [console_log [Str "Forced forging disabled for nethash";
                                        nethash]])%list).
Proof.
  intros (program & l & evs1 & evs3 & m & cs & es
          & Hparse & _ & _ & _ & _ & _ & Hforce & ->)%Config_Returned.
  exists program, evs1. split; [done|].
  destruct (validateForce_cases _ _ _ Hforce)
    as (? & ? & _ & _
        & [(_ & -> & _)|(_ & ? & ? & nethash & _ & _ & _
                         & [(_ & -> & _)|(_ & -> & _)])]).
  - left. apply app_nil_r.
  - left. apply app_nil_r.
  - right. by exists nethash.
Qed.

(** X19. With none of the flags [-p], [-a], [-l], [-s], [-x] given, no
    [database] on the parser and none of [ADAMANT_HTTP_PORT],
    [ADAMANT_CONSOLE_LOG_LEVEL], [ADAMANT_PEERS] set, pruning leaves of
    the command-line source the [coverage] flag alone. *)
Theorem commandLineConfig_bare (program : gmap string value)
    (defaultConfig customConfig cli : value) (evs : list event) :
  commandLineConfig H program defaultConfig customConfig = (evs, Returned cli) →
  Forall (λ name, program !! name = None)
    ["port"; "address"; "log"; "database"; "snapshot"; "peers"] →
  Forall (λ name, env H !! name = None)
    ["ADAMANT_HTTP_PORT"; "ADAMANT_CONSOLE_LOG_LEVEL"; "ADAMANT_PEERS"] →
  cleanDeep defaultOptions cli
  = Obj {[ "coverage" :=
             Bool (strict_eq (process_env H "NODE_ENV") (Str "test")) ]}.
Proof.
  intros (defaultPort & -> & _)%commandLineConfig_Returned Hflags Henv.
  repeat match goal with
         | F : Forall _ (_ :: _) |- _ => apply Forall_cons in F as [? F]
         end.
  unfold cliSource, requestedPort, option_value.
  assert (process_env H "ADAMANT_HTTP_PORT" = Undefined) as ->
    by (unfold process_env;
        by match goal with E : env H !! "ADAMANT_HTTP_PORT" = None |- _ =>
             rewrite E end).
  assert (process_env H "ADAMANT_CONSOLE_LOG_LEVEL" = Undefined) as ->
    by (unfold process_env;
        by match goal with E : env H !! "ADAMANT_CONSOLE_LOG_LEVEL" = None |- _ =>
             rewrite E end).
  assert (process_env H "ADAMANT_PEERS" = Undefined) as ->
    by (unfold process_env;
        by match goal with E : env H !! "ADAMANT_PEERS" = None |- _ =>
             rewrite E end).
  repeat match goal with
         | E : program !! _ = None |- _ => rewrite E; clear E
         end.
  generalize (strict_eq (process_env H "NODE_ENV") (Str "test")).
  intros coverage. vm_compute. reflexivity.
Qed.

End Config_properties.

(** ** The further properties on the sample host *)

Lemma Config_unreadable_genesis_witness :
  Config unreadableHost samplePackage true
  = ([console_error
        [Str "Failed to load file: /opt/adamant/./config/testnet/genesisBlock.json"];
      console_error
        [Str "ENOENT: no such file or directory, open '/opt/adamant/./config/testnet/genesisBlock.json'"]],
     Exited 1).
Proof.
  refine (eq_trans
    (Config_unreadable_genesis unreadableHost samplePackage true sampleProgram []
       "ENOENT: no such file or directory, open '/opt/adamant/./config/testnet/genesisBlock.json'"
       _ _) _);
    vm_compute; reflexivity.
Defined.

Lemma Config_attachments_witness :
  ∃ program evs1 genesis defaultConfig customPath customConfig
    defaultConstants customConstants defaultExceptions customExceptions,
    parseCommandLine (sampleHost true) samplePackage true
      = (evs1, Returned program)
    ∧ readJSON (sampleHost true) (genesisPath (sampleHost true) program)
      = inr genesis
    ∧ readJSON (sampleHost true) (defaultConfigPath (sampleHost true))
      = inr defaultConfig
    ∧ customConfigFile (sampleHost true) program = Str customPath
    ∧ readJSON (sampleHost true)
        (path_resolve (sampleHost true) (rootPath (sampleHost true)) customPath)
      = inr customConfig
    ∧ require (sampleHost true) "../config/default/constants.js"
      = Some defaultConstants
    ∧ require (sampleHost true)
        ("../config/" ++ ToString (networkOf (sampleHost true) program)
         ++ "/constants.js")
      = Some customConstants
    ∧ require (sampleHost true) "../config/default/exceptions.js"
      = Some defaultExceptions
    ∧ require (sampleHost true)
        ("../config/" ++ ToString (networkOf (sampleHost true) program)
         ++ "/exceptions.js")
      = Some customExceptions
    ∧ own sampleConfig "genesisBlock" = Some genesis
    ∧ own sampleConfig "constants"
      = Lodash.merge defaultConstants [customConstants]
    ∧ own sampleConfig "exceptions"
      = Lodash.merge defaultExceptions [customExceptions].
Proof.
  apply (Config_attachments (sampleHost true) samplePackage true
           sampleConfig sampleNotice).
  vm_compute. reflexivity.
Defined.

Lemma Config_never_forces_listed_witness :
  truthy (Bool false) && listed [Str "H1"] (Str "H1") = false.
Proof.
  apply (Config_never_forces_listed (sampleHost true) samplePackage true
           sampleConfig sampleNotice
           (Obj {[ "force" := Bool false ]}) (Bool false)
           (Obj {[ "nethashes" := Arr [Str "H1"] ]}) (Str "H1") [Str "H1"]);
    vm_compute; reflexivity.
Defined.

Lemma Config_runtime_values_witness :
  own sampleConfig "root" = Some (Str (rootPath (sampleHost true)))
  ∧ own sampleConfig "nonce"
    = Some (Str (randomstring_generate (sampleHost true) 16))
  ∧ own sampleConfig "coverage"
    = Some (Bool (strict_eq (process_env (sampleHost true) "NODE_ENV")
                            (Str "test"))).
Proof.
  apply (Config_runtime_values (sampleHost true) samplePackage true
           sampleConfig sampleNotice).
  vm_compute. reflexivity.
Defined.

Lemma Config_requested_port_witness :
  own sampleConfig "port" = Some (requestedPort (sampleHost true) sampleProgram).
Proof.
  apply (Config_requested_port (sampleHost true) samplePackage true
           sampleProgram sampleConfig [] sampleNotice);
    vm_compute; reflexivity.
Defined.

Lemma Config_quiet_witness :
  ∃ program evs1,
    parseCommandLine (sampleHost true) samplePackage true
      = (evs1, Returned program)
    ∧ (sampleNotice = evs1
       ∨ ∃ nethash,
           sampleNotice
           = (evs1 ++ [console_log [Str "Forced forging disabled for nethash";
                                    nethash]])%list).
Proof.
  apply (Config_quiet (sampleHost true) samplePackage true sampleConfig).
  vm_compute. reflexivity.
Defined.

Lemma commandLineConfig_bare_witness :
  cleanDeep defaultOptions
    (Obj (cliSource (sampleHost true) ∅ (n 36666)))
  = Obj {[ "coverage" :=
             Bool (strict_eq (process_env (sampleHost true) "NODE_ENV")
                             (Str "test")) ]}.
Proof.
  apply (commandLineConfig_bare (sampleHost true) ∅
           (Obj {[ "port" := n 36666 ]}) (Obj ∅) _ []).
  - vm_compute. reflexivity.
  - repeat constructor.
  - repeat constructor.
Defined.
